(** * redis-lock: a distributed mutex on a single Redis node

    A shallow embedding of package [lock] (the Go source of the
    repository) together with the part of its environment the code talks
    to: the Go heap cell that holds the caller's [Options], the Redis
    keyspace, the go-redis client's results and the Lua script that
    [Unlock] ships to the server.

    Integers: Go's [int] and [time.Duration] (an [int64] counting
    nanoseconds) are modelled as [Z].  The code only compares them with
    constants, assigns constants and decrements a positive counter, so no
    operation of the package can wrap around. *)

From Stdlib Require Import ZArith Lia.
From stdpp Require Import base option list strings gmap.

Local Open Scope Z_scope.

(** ** Package [time] *)

Module time.
Definition Nanosecond : Z := 1.
Definition Microsecond : Z := 1000 * Nanosecond.
Definition Millisecond : Z := 1000 * Microsecond.
Definition Second : Z := 1000 * Millisecond.
End time.

(** ** Errors

    The three sentinels of the package, go-redis's [redis.Nil] (the error
    value that stands for a nil reply) and the failures of the client's
    primitives themselves (network, protocol), which carry the message of
    the Go error. *)

Inductive error : Type :=
  | ErrLockNotAcquired
  | ErrUnlockFailed
  | ErrUnlockKeyExpired
  | redis_Nil
  | StoreError (msg : string).

Global Instance error_eq_dec : EqDecision error.
Proof. solve_decision. Defined.

(** ** Options *)

Record Options : Type := mkOptions {
  Expiration : Z;
  RetryCount : Z;
  RetryDelay : Z
}.

Definition set_Expiration (v : Z) (o : Options) : Options :=
  mkOptions v (RetryCount o) (RetryDelay o).
Definition set_RetryCount (v : Z) (o : Options) : Options :=
  mkOptions (Expiration o) v (RetryDelay o).
Definition set_RetryDelay (v : Z) (o : Options) : Options :=
  mkOptions (Expiration o) (RetryCount o) v.

(** A [*Options]: [None] is the nil pointer, [Some l] the address of a
    heap cell. *)
Abbreviation loc := positive.
Abbreviation ptr := (option loc).

(** ** The Redis side *)

(** A lock record: the value stored under a key and its time to live. *)
Record Entry : Type := mkEntry {
  val : string;
  ttl : Z
}.

Global Instance Entry_eq_dec : EqDecision Entry.
Proof. solve_decision. Defined.

(** What the transport does to one command: nothing, fail before the
    command reaches the server, or lose the reply of a command the server
    has executed. *)
Inductive fault : Type :=
  | NoFault
  | SendFails (msg : string)
  | ReplyLost (msg : string).

(** What other clients (and the server's expiry, which removes a key) do
    to the keyspace while this process sleeps. *)
Inductive env_action : Type :=
  | EnvSet (k v : string) (t : Z)
  | EnvDel (k : string).

Definition action_key (a : env_action) : string :=
  match a with
  | EnvSet k _ _ => k
  | EnvDel k => k
  end.

Definition apply_action (s : gmap string Entry) (a : env_action) : gmap string Entry :=
  match a with
  | EnvSet k v t => <[k := mkEntry v t]> s
  | EnvDel k => delete k s
  end.

(** Go's [interface{}] as far as [Eval] produces it. *)
Inductive iface : Type :=
  | I_nil
  | I_int64 (n : Z)
  | I_string (s : string).

(** The observable events of a run, in the order they happen.  A command
    is logged with what the client returned for it. *)
Inductive event : Type :=
  | EvSetNX (key value : string) (expiration : Z) (ok : bool) (err : option error)
  | EvEval (key arg : string) (res : iface) (err : option error)
  | EvSleep (d : Z).

(** ** State of a run *)

Record State : Type := mkState {
  heap : gmap loc Options;          (* the Go heap: cells of type Options *)
  store : gmap string Entry;        (* the Redis keyspace *)
  faults : list fault;              (* transport, one entry per command *)
  others : list (list env_action);  (* interference, one entry per sleep *)
  trace : list event                (* events so far *)
}.

Definition set_heap (h : gmap loc Options) (s : State) : State :=
  mkState h (store s) (faults s) (others s) (trace s).
Definition set_store (m : gmap string Entry) (s : State) : State :=
  mkState (heap s) m (faults s) (others s) (trace s).
Definition set_faults (f : list fault) (s : State) : State :=
  mkState (heap s) (store s) f (others s) (trace s).
Definition set_others (e : list (list env_action)) (s : State) : State :=
  mkState (heap s) (store s) (faults s) e (trace s).
Definition set_trace (t : list event) (s : State) : State :=
  mkState (heap s) (store s) (faults s) (others s) t.

(** ** The monad of Go code: state, panics and (for the loop) fuel *)

Inductive Outcome (A : Type) : Type :=
  | Ret (a : A)
  | Panic
  | OutOfFuel.
Arguments Ret {A} a.
Arguments Panic {A}.
Arguments OutOfFuel {A}.

Definition M (A : Type) : Type := State → Outcome (A * State).

Global Instance M_ret : MRet M := λ A a s, Ret (a, s).
Global Instance M_bind : MBind M := λ A B f m s,
  match m s with
  | Ret (a, s') => f a s'
  | Panic => Panic
  | OutOfFuel => OutOfFuel
  end.

Definition panic {A : Type} : M A := λ _, Panic.
Definition out_of_fuel {A : Type} : M A := λ _, OutOfFuel.
Definition modify (f : State → State) : M unit := λ s, Ret (tt, f s).

(** Reading and writing a field through a [*Options]: a nil pointer (or
    an address that holds nothing) panics. *)
Definition load (o : ptr) (field : Options → Z) : M Z := λ s,
  match o ≫= (λ l, heap s !! l) with
  | Some x => Ret (field x, s)
  | None => Panic
  end.

Definition store_field (o : ptr) (upd : Options → Options) : M unit := λ s,
  match o with
  | Some l =>
      match heap s !! l with
      | Some x => Ret (tt, set_heap (<[l := upd x]> (heap s)) s)
      | None => Panic
      end
  | None => Panic
  end.

Definition when (b : bool) (m : M unit) : M unit := if b then m else mret tt.

(** ** [Options.init] (source lines 107-118) *)

Definition init (o : ptr) : M ptr :=
  e ← load o Expiration;
  when (e <? 1) (store_field o (set_Expiration (5 * time.Second)));;
  c ← load o RetryCount;
  when (c <? 0) (store_field o (set_RetryCount 0));;
  r ← load o RetryDelay;
  when (r <? 1) (store_field o (set_RetryDelay (100 * time.Millisecond)));;
  mret o.

(** ** The go-redis client *)

Record redis_Client : Type := mkClient {
  Addr : string
}.

Definition next_fault : M fault := λ s,
  match faults s with
  | [] => Ret (NoFault, s)
  | f :: fs => Ret (f, set_faults fs s)
  end.

Definition log (e : event) : M unit :=
  modify (λ s, set_trace (trace s ++ [e]) s).

(** Run one atomic server-side step on the keyspace. *)
Definition on_store {A : Type} (f : gmap string Entry → A * gmap string Entry) : M A := λ s,
  let '(a, m) := f (store s) in Ret (a, set_store m s).

(** Modelled from the spec: the store's create-if-absent-with-expiry
    primitive (section 6), which go-redis issues as [SET key value PX ttl NX];
    the client library is not part of the repository.  The key is written,
    with the given time to live, only when it holds no value; the result
    says whether it was written. *)
Definition redis_set_nx (key value : string) (t : Z) (m : gmap string Entry)
  : bool * gmap string Entry :=
  match m !! key with
  | Some _ => (false, m)
  | None => (true, <[key := mkEntry value t]> m)
  end.

(** [Client.SetNX(key, value, expiration).Result()] of go-redis.  A nil client
    panics; a transport failure yields its error and [false].  The record
    keeps the duration it was created with as its [ttl]; its expiry is a
    removal by the environment (see [Sleep]). *)
Definition SetNX (c : option redis_Client) (key value : string) (expiration : Z)
  : M (bool * option error) :=
  match c with
  | None => panic
  | Some _ =>
      f ← next_fault;
      r ← match f with
          | SendFails msg => mret (false, Some (StoreError msg))
          | ReplyLost msg =>
              on_store (redis_set_nx key value expiration);;
              mret (false, Some (StoreError msg))
          | NoFault =>
              created ← on_store (redis_set_nx key value expiration);
              mret (created, None)
          end;
      log (EvSetNX key value expiration r.1 r.2);;
      mret r
  end.

(** *** Lua values and Redis replies inside [EVAL] *)

Inductive lua_value : Type :=
  | LuaNil
  | LuaBool (b : bool)
  | LuaNumber (n : Z)
  | LuaString (s : string).

(** Lua's [==]: values of different types are never equal. *)
Definition lua_eq (a b : lua_value) : bool :=
  match a, b with
  | LuaNil, LuaNil => true
  | LuaBool x, LuaBool y => bool_decide (x = y)
  | LuaNumber x, LuaNumber y => bool_decide (x = y)
  | LuaString x, LuaString y => bool_decide (x = y)
  | _, _ => false
  end.

(** [redis.call('get', k)]: the bulk reply becomes a Lua string, the nil
    reply of a missing key becomes Lua [false]. *)
Definition redis_call_get (k : string) (m : gmap string Entry) : lua_value :=
  match m !! k with
  | Some e => LuaString (val e)
  | None => LuaBool false
  end.

(** [redis.call('del', k)]: the number of keys removed. *)
Definition redis_call_del (k : string) (m : gmap string Entry)
  : lua_value * gmap string Entry :=
  match m !! k with
  | Some _ => (LuaNumber 1, delete k m)
  | None => (LuaNumber 0, m)
  end.

(** [UnlockLuaScript] (source line 17), applied to [KEYS[1]] and [ARGV[1]]:
    [Unlock] always passes exactly one key and one argument.

    if redis.call('get', KEYS[1]) == ARGV[1]
    then return redis.call('del', KEYS[1]) else return 0 end *)
Definition UnlockLuaScript (KEYS1 ARGV1 : string) (m : gmap string Entry)
  : lua_value * gmap string Entry :=
  if lua_eq (redis_call_get KEYS1 m) (LuaString ARGV1)
  then redis_call_del KEYS1 m
  else (LuaNumber 0, m).

Inductive reply : Type :=
  | NilReply
  | IntegerReply (n : Z)
  | BulkReply (s : string).

(** The value a script returns, as the reply the server sends. *)
Definition lua_to_reply (v : lua_value) : reply :=
  match v with
  | LuaNil => NilReply
  | LuaBool false => NilReply
  | LuaBool true => IntegerReply 1
  | LuaNumber n => IntegerReply n
  | LuaString s => BulkReply s
  end.

(** go-redis's [Cmd.Result()] for a reply: a nil reply is the error
    [redis.Nil]. *)
Definition reply_result (r : reply) : iface * option error :=
  match r with
  | NilReply => (I_nil, Some redis_Nil)
  | IntegerReply n => (I_int64 n, None)
  | BulkReply s => (I_string s, None)
  end.

(** [Client.Eval(script, keys, arg).Result()] of go-redis, with one key: the
    script runs as one atomic step of the server. *)
Definition Eval (c : option redis_Client)
    (script : string → string → gmap string Entry → lua_value * gmap string Entry)
    (key arg : string) : M (iface * option error) :=
  match c with
  | None => panic
  | Some _ =>
      f ← next_fault;
      r ← match f with
          | SendFails msg => mret (I_nil, Some (StoreError msg))
          | ReplyLost msg =>
              on_store (script key arg);;
              mret (I_nil, Some (StoreError msg))
          | NoFault =>
              v ← on_store (script key arg);
              mret (reply_result (lua_to_reply v))
          end;
      log (EvEval key arg r.1 r.2);;
      mret r
  end.

(** [time.Sleep(d)]: the process is idle and the rest of the world moves. *)
Definition Sleep (d : Z) : M unit :=
  log (EvSleep d);;
  modify (λ s,
    match others s with
    | [] => s
    | acts :: rest => set_others rest (set_store (foldl apply_action (store s) acts) s)
    end).

(** ** The distributed mutex *)

(** The struct of source lines 21-36.  Its [sync.Mutex] only orders
    concurrent callers of one instance: in a sequential run it is free at
    every entry of [Lock] and [Unlock] and released at every exit, so it
    carries no state here. *)
Record DistributedMutex : Type := mkDistributedMutex {
  Key : string;
  Value : string;
  Client : option redis_Client;
  Opt : ptr
}.

(** [NewDistributedMutex] (source lines 55-63). *)
Definition NewDistributedMutex (key value : string) (client : option redis_Client)
    (opt : ptr) : M DistributedMutex :=
  init opt;;
  mret (mkDistributedMutex key value client opt).

(** [tryLock] (source lines 85-88). *)
Definition tryLock (d : DistributedMutex) : M (bool * option error) :=
  e ← load (Opt d) Expiration;
  SetNX (Client d) (Key d) (Value d) e.

(** The [for] loop of [Lock] (source lines 70-82).  [fuel] bounds the
    number of further iterations; [Lock] passes enough of it. *)
Fixpoint lock_loop (d : DistributedMutex) (fuel : nat) (retryCount : Z)
  : M (option error) :=
  r ← tryLock d;
  match r with
  | (_, Some err) => mret (Some err)
  | (true, None) => mret None
  | (false, None) =>
      if retryCount <=? 0 then mret (Some ErrLockNotAcquired)
      else
        match fuel with
        | O => out_of_fuel
        | S fuel' =>
            delay ← load (Opt d) RetryDelay;
            Sleep delay;;
            lock_loop d fuel' (retryCount - 1)
        end
  end.

(** [Lock] (source lines 66-83). *)
Definition Lock (d : DistributedMutex) : M (option error) :=
  retryCount ← load (Opt d) RetryCount;
  lock_loop d (Z.to_nat retryCount) retryCount.

(** [Unlock] (source lines 91-105). *)
Definition Unlock (d : DistributedMutex) : M (option error) :=
  r ← Eval (Client d) UnlockLuaScript (Key d) (Value d);
  match r with
  | (_, Some redis_Nil) => mret (Some ErrUnlockKeyExpired)
  | (_, Some err) => mret (Some err)
  | (I_int64 1, None) => mret None
  | (_, None) => mret (Some ErrUnlockFailed)
  end.

(** ** Running the code on concrete inputs *)

Module Examples.
Definition client : option redis_Client := Some (mkClient "127.0.0.1:6379").

Definition state0 (o : Options) (m : gmap string Entry) : State :=
    mkState {[ 1%positive := o ]} m [] [] [].

Definition mutex (key value : string) : DistributedMutex :=
    mkDistributedMutex key value client (Some 1%positive).
End Examples.

(** What [init] leaves in the cell it is given: the three assignments of
    the source, in order. *)
Definition resolve (o : Options) : Options :=
  let o1 := if Expiration o <? 1 then set_Expiration (5 * time.Second) o else o in
  let o2 := if RetryCount o1 <? 0 then set_RetryCount 0 o1 else o1 in
  if RetryDelay o2 <? 1 then set_RetryDelay (100 * time.Millisecond) o2 else o2.

(** The transport's verdict on the next command; a run whose schedule is
    exhausted sees no further failure. *)
Definition upcoming_fault (s : State) : fault := hd NoFault (faults s).

(** The error, if any, that the client returned for a logged command. *)
Definition client_error (ev : event) : option error :=
  match ev with
  | EvSetNX _ _ _ _ err => err
  | EvEval _ _ _ err => err
  | EvSleep _ => None
  end.

(** Counting the create-if-absent attempts in a log. *)
Definition is_attempt (ev : event) : bool :=
  match ev with
  | EvSetNX _ _ _ _ _ => true
  | _ => false
  end.

Fixpoint attempts (evs : list event) : nat :=
  match evs with
  | [] => O
  | ev :: rest => ((if is_attempt ev then 1 else 0) + attempts rest)%nat
  end.

(** The log of an acquisition that loses every attempt: one failed
    attempt, then [n] times a sleep followed by a failed attempt. *)
Fixpoint contended_run (key value : string) (expiration delay : Z) (n : nat)
  : list event :=
  match n with
  | O => [EvSetNX key value expiration false None]
  | S n' =>
      EvSetNX key value expiration false None :: EvSleep delay
        :: contended_run key value expiration delay n'
  end.

(** The transport delivers every command of the run. *)
Definition transport_reliable (s : State) : bool :=
  forallb (λ f, match f with NoFault => true | _ => false end) (faults s).

(** Nobody else writes or removes key [k] (and it does not expire) while
    the run sleeps. *)
Definition key_undisturbed (k : string) (s : State) : bool :=
  forallb (forallb (λ a, bool_decide (action_key a ≠ k))) (others s).

(** The durations a logged run passed to [time.Sleep], summed. *)
Fixpoint slept (evs : list event) : Z :=
  match evs with
  | [] => 0
  | EvSleep delay :: rest => delay + slept rest
  | _ :: rest => slept rest
  end.


(** The log of [k] rounds of the loop that found the key taken: a failed
    attempt and the sleep after it, [k] times. *)
Fixpoint failed_rounds (key value : string) (expiration delay : Z) (k : nat)
  : list event :=
  match k with
  | O => []
  | S k' =>
      EvSetNX key value expiration false None :: EvSleep delay
        :: failed_rounds key value expiration delay k'
  end.

(** ** The example program (example.go) *)

(** [err.Error()]: the texts of the package's sentinels (source lines
    14-16) and of go-redis's [redis.Nil]; a store error prints its
    message. *)
Definition Error (e : error) : string :=
  match e with
  | ErrLockNotAcquired => "lock not acquired"
  | ErrUnlockFailed => "unlock failed"
  | ErrUnlockKeyExpired => "unlock key expired"
  | redis_Nil => "redis: nil"
  | StoreError msg => msg
  end.

(** [&lock.Options{...}]: a new heap cell, at an address not in use. *)
Definition new_Options (o : Options) : M ptr := λ s,
  let l := fresh (dom (heap s)) in
  Ret (Some l, set_heap (<[l := o]> (heap s)) s).

(** [getRedisClient] (example.go lines 9-16): a client for the local
    server; its error result is always nil.  Database index and pool size
    play no part in what the client returns. *)
Definition getRedisClient : M (option redis_Client * option error) :=
  mret (Some (mkClient "127.0.0.1:6379"), None).

(** [logic] (example.go lines 18-20): the protected work, empty. *)
Definition logic : M unit := mret tt.

(** How [main] ends: it returns, or [log.Fatalf] prints a message and
    exits the process (deferred calls do not run). *)
Inductive exit : Type :=
  | Returned
  | Fatal (msg : string).

(** [main] (example.go lines 22-34).  The deferred [Unlock] is registered
    after the lock is held and runs when [main] returns; its result is
    dropped. *)
Definition main : M exit :=
  r ← getRedisClient;
  match r.2 with
  | Some err => mret (Fatal ("get a redis client fail, " +:+ Error err))
  | None =>
      opt ← new_Options (mkOptions 0 0 0);
      distMutex ← NewDistributedMutex "key" "request-id" r.1 opt;
      err ← Lock distMutex;
      match err with
      | Some e => mret (Fatal ("get a lock fail, " +:+ Error e))
      | None =>
          logic;;
          Unlock distMutex;;
          mret Returned
      end
  end.

(** * Properties *)

(** ** Configuration resolution *)

(** One-step equations of the monad. *)

Lemma load_Some (s : State) (l : loc) (o : Options) (field : Options → Z) :
  heap s !! l = Some o → load (Some l) field s = Ret (field o, s).
Proof. intros H. unfold load. cbn [mbind option_bind]. by rewrite H. Qed.

Lemma store_field_Some (s : State) (l : loc) (o : Options) (upd : Options → Options) :
  heap s !! l = Some o →
  store_field (Some l) upd s = Ret (tt, set_heap (<[l := upd o]> (heap s)) s).
Proof. intros H. unfold store_field. by rewrite H. Qed.

Lemma bind_Ret {A B : Type} (m : M A) (f : A → M B) (s s' : State) (a : A) :
  m s = Ret (a, s') → (m ≫= f) s = f a s'.
Proof. intros H. unfold mbind, M_bind. by rewrite H. Qed.

Lemma bind_Panic {A B : Type} (m : M A) (f : A → M B) (s : State) :
  m s = Panic → (m ≫= f) s = Panic.
Proof. intros H. unfold mbind, M_bind. by rewrite H. Qed.

(** One guarded assignment of [init]: read a field, overwrite it when the
    test says so. *)
Lemma guarded_store (s : State) (l : loc) (o : Options)
    (field : Options → Z) (test : Z → bool) (upd : Options → Options) :
  heap s !! l = Some o →
  (x ← load (Some l) field; when (test x) (store_field (Some l) upd)) s
  = Ret (tt, set_heap (<[l := if test (field o) then upd o else o]> (heap s)) s).
Proof.
  intros H. rewrite (bind_Ret _ _ _ _ _ (load_Some _ _ _ field H)).
  unfold when. destruct (test (field o)).
  - by apply store_field_Some.
  - rewrite (insert_id _ _ _ H). by destruct s.
Qed.

Lemma bind_assoc {A B C : Type} (m : M A) (f : A → M B) (g : B → M C) (s : State) :
  ((m ≫= f) ≫= g) s = (m ≫= (λ a, f a ≫= g)) s.
Proof. unfold mbind, M_bind. destruct (m s) as [[a s']| |]; reflexivity. Qed.

Lemma init_run (s : State) (l : loc) (o : Options) :
  heap s !! l = Some o →
  init (Some l) s = Ret (Some l, set_heap (<[l := resolve o]> (heap s)) s).
Proof.
  intros Hl. unfold init.
  rewrite <- bind_assoc.
  rewrite (bind_Ret _ _ _ _ _ (guarded_store s l o Expiration (λ e, e <? 1) _ Hl)).
  set (o1 := if Expiration o <? 1 then _ else o).
  set (s1 := set_heap _ s).
  assert (H1 : heap s1 !! l = Some o1) by apply lookup_insert_eq.
  rewrite <- bind_assoc.
  rewrite (bind_Ret _ _ _ _ _ (guarded_store s1 l o1 RetryCount (λ c, c <? 0) _ H1)).
  set (o2 := if RetryCount o1 <? 0 then _ else o1).
  set (s2 := set_heap _ s1).
  assert (H2 : heap s2 !! l = Some o2) by apply lookup_insert_eq.
  rewrite <- bind_assoc.
  rewrite (bind_Ret _ _ _ _ _ (guarded_store s2 l o2 RetryDelay (λ r, r <? 1) _ H2)).
  unfold mret, M_ret, resolve. fold o1. fold o2.
  subst s2 s1. destruct s. cbn [set_heap heap store faults others trace].
  by rewrite !insert_insert_eq.
Qed.

Lemma resolve_Expiration (o : Options) :
  Expiration (resolve o) = if Expiration o <? 1 then 5 * time.Second else Expiration o.
Proof.
  unfold resolve. destruct o as [e c r]. cbn.
  destruct (e <? 1); cbn; destruct (c <? 0); cbn; destruct (r <? 1); reflexivity.
Qed.

Lemma resolve_RetryCount (o : Options) :
  RetryCount (resolve o) = if RetryCount o <? 0 then 0 else RetryCount o.
Proof.
  unfold resolve. destruct o as [e c r]. cbn.
  destruct (e <? 1); cbn; destruct (c <? 0); cbn; destruct (r <? 1); reflexivity.
Qed.

Lemma resolve_RetryDelay (o : Options) :
  RetryDelay (resolve o) = if RetryDelay o <? 1 then 100 * time.Millisecond else RetryDelay o.
Proof.
  unfold resolve. destruct o as [e c r]. cbn.
  destruct (e <? 1); cbn; destruct (c <? 0); cbn; destruct (r <? 1); reflexivity.
Qed.

Lemma Options_eq (a b : Options) :
  Expiration a = Expiration b → RetryCount a = RetryCount b →
  RetryDelay a = RetryDelay b → a = b.
Proof. destruct a, b. cbn. by intros -> -> ->. Qed.

Lemma resolve_idemp (o : Options) : resolve (resolve o) = resolve o.
Proof.
  apply Options_eq.
  - rewrite !resolve_Expiration.
    destruct (Expiration o <? 1) eqn:H; [reflexivity | by rewrite H].
  - rewrite !resolve_RetryCount.
    destruct (RetryCount o <? 0) eqn:H; [reflexivity | by rewrite H].
  - rewrite !resolve_RetryDelay.
    destruct (RetryDelay o <? 1) eqn:H; [reflexivity | by rewrite H].
Qed.

(** C6: for every input policy, [init] replaces [Expiration] by 5 seconds
    when it is below 1, [RetryCount] by 0 when it is negative and
    [RetryDelay] by 100 milliseconds when it is below 1; a field that is
    already valid keeps its value. *)
Theorem init_resolves_defaults (s : State) (l : loc) (o : Options) :
  heap s !! l = Some o →
  ∃ o', init (Some l) s = Ret (Some l, set_heap (<[l := o']> (heap s)) s) ∧
    (Expiration o < 1 → Expiration o' = 5 * time.Second) ∧
    (1 ≤ Expiration o → Expiration o' = Expiration o) ∧
    (RetryCount o < 0 → RetryCount o' = 0) ∧
    (0 ≤ RetryCount o → RetryCount o' = RetryCount o) ∧
    (RetryDelay o < 1 → RetryDelay o' = 100 * time.Millisecond) ∧
    (1 ≤ RetryDelay o → RetryDelay o' = RetryDelay o) ∧
    5 * time.Second = 5000000000 ∧ 100 * time.Millisecond = 100000000.
Proof.
  intros Hl. exists (resolve o). split; [by apply init_run|].
  rewrite resolve_Expiration, resolve_RetryCount, resolve_RetryDelay.
  repeat apply conj; try reflexivity; intros H.
  - by rewrite (proj2 (Z.ltb_lt _ _) H).
  - by rewrite (proj2 (Z.ltb_ge _ _) H).
  - by rewrite (proj2 (Z.ltb_lt _ _) H).
  - by rewrite (proj2 (Z.ltb_ge _ _) H).
  - by rewrite (proj2 (Z.ltb_lt _ _) H).
  - by rewrite (proj2 (Z.ltb_ge _ _) H).
Qed.

Lemma init_resolves_defaults_witness :
  ∃ o', init (Some 1%positive) (Examples.state0 (mkOptions 0 (-1) 250) ∅)
        = Ret (Some 1%positive,
               set_heap (<[1%positive := o']> (heap (Examples.state0 (mkOptions 0 (-1) 250) ∅)))
                        (Examples.state0 (mkOptions 0 (-1) 250) ∅)) ∧
    (Expiration (mkOptions 0 (-1) 250) < 1 → Expiration o' = 5 * time.Second) ∧
    (1 ≤ Expiration (mkOptions 0 (-1) 250) → Expiration o' = Expiration (mkOptions 0 (-1) 250)) ∧
    (RetryCount (mkOptions 0 (-1) 250) < 0 → RetryCount o' = 0) ∧
    (0 ≤ RetryCount (mkOptions 0 (-1) 250) → RetryCount o' = RetryCount (mkOptions 0 (-1) 250)) ∧
    (RetryDelay (mkOptions 0 (-1) 250) < 1 → RetryDelay o' = 100 * time.Millisecond) ∧
    (1 ≤ RetryDelay (mkOptions 0 (-1) 250) → RetryDelay o' = RetryDelay (mkOptions 0 (-1) 250)) ∧
    5 * time.Second = 5000000000 ∧ 100 * time.Millisecond = 100000000.
Proof.
  apply (init_resolves_defaults (Examples.state0 (mkOptions 0 (-1) 250) ∅) 1%positive
           (mkOptions 0 (-1) 250)).
  reflexivity.
Defined.

(** C9: resolution is idempotent and pure.  On every policy [init]
    returns (it cannot fail), running it again on its own result changes
    nothing, it touches neither the keyspace nor the client nor the event
    log, it leaves every other heap cell alone, and the constructor built
    on it hands key, token and client through as given. *)
Theorem init_idempotent_pure (s : State) (l : loc) (o : Options)
    (key value : string) (client : option redis_Client) :
  heap s !! l = Some o →
  ∃ s1, init (Some l) s = Ret (Some l, s1) ∧
    init (Some l) s1 = Ret (Some l, s1) ∧
    (store s1 = store s ∧ faults s1 = faults s ∧ others s1 = others s ∧
     trace s1 = trace s) ∧
    (∀ l', l' ≠ l → heap s1 !! l' = heap s !! l') ∧
    NewDistributedMutex key value client (Some l) s
      = Ret (mkDistributedMutex key value client (Some l), s1).
Proof.
  intros Hl. exists (set_heap (<[l := resolve o]> (heap s)) s).
  assert (H1 : heap (set_heap (<[l := resolve o]> (heap s)) s) !! l = Some (resolve o))
    by apply lookup_insert_eq.
  split; [by apply init_run|]. split.
  - rewrite (init_run _ _ _ H1), resolve_idemp.
    destruct s. cbn [set_heap heap store faults others trace].
    by rewrite insert_insert_eq.
  - split; [by destruct s|]. split.
    + intros l' Hne. destruct s. cbn [set_heap heap]. by apply lookup_insert_ne.
    + unfold NewDistributedMutex. by rewrite (bind_Ret _ _ _ _ _ (init_run _ _ _ Hl)).
Qed.

Lemma init_idempotent_pure_witness :
  ∃ s1, init (Some 1%positive) (Examples.state0 (mkOptions 0 (-1) 250) ∅) = Ret (Some 1%positive, s1) ∧
    init (Some 1%positive) s1 = Ret (Some 1%positive, s1) ∧
    (store s1 = store (Examples.state0 (mkOptions 0 (-1) 250) ∅) ∧
     faults s1 = faults (Examples.state0 (mkOptions 0 (-1) 250) ∅) ∧
     others s1 = others (Examples.state0 (mkOptions 0 (-1) 250) ∅) ∧
     trace s1 = trace (Examples.state0 (mkOptions 0 (-1) 250) ∅)) ∧
    (∀ l', l' ≠ 1%positive →
       heap s1 !! l' = heap (Examples.state0 (mkOptions 0 (-1) 250) ∅) !! l') ∧
    NewDistributedMutex "key" "request-id" Examples.client (Some 1%positive)
        (Examples.state0 (mkOptions 0 (-1) 250) ∅)
      = Ret (mkDistributedMutex "key" "request-id" Examples.client (Some 1%positive), s1).
Proof.
  apply (init_idempotent_pure (Examples.state0 (mkOptions 0 (-1) 250) ∅) 1%positive
           (mkOptions 0 (-1) 250)).
  reflexivity.
Defined.

Lemma init_nil (s : State) : init None s = Panic.
Proof. reflexivity. Qed.

Lemma init_dangling (l : loc) (s : State) :
  heap s !! l = None → init (Some l) s = Panic.
Proof.
  intros Hl. unfold init. apply bind_Panic.
  unfold load. cbn [mbind option_bind]. by rewrite Hl.
Qed.

(** C10: for every key, token and client reference, [NewDistributedMutex]
    with a nil options pointer panics, and the panic is the nil dereference
    in [init]; whenever the constructor returns an instance, the options
    pointer it was given is not nil (it points to an [Options] value). *)
Theorem NewDistributedMutex_nil_Options_panics
    (key value : string) (client : option redis_Client) (s : State) :
  init None s = Panic ∧
  NewDistributedMutex key value client None s = Panic ∧
  ∀ opt, NewDistributedMutex key value client opt s ≠ Panic →
         ∃ l, opt = Some l ∧ is_Some (heap s !! l).
Proof.
  split; [reflexivity|]. split; [reflexivity|].
  intros opt H. destruct opt as [l|]; [|by destruct H].
  exists l. split; [done|].
  destruct (heap s !! l) as [o|] eqn:Hl; [by eexists|].
  destruct H. unfold NewDistributedMutex. apply bind_Panic. by apply init_dangling.
Qed.

(** ** Release *)

Lemma UnlockLuaScript_match (k a : string) (m : gmap string Entry) (e : Entry) :
  m !! k = Some e → val e = a →
  UnlockLuaScript k a m = (LuaNumber 1, delete k m).
Proof.
  intros Hk Hv. unfold UnlockLuaScript, redis_call_get, redis_call_del.
  rewrite Hk. cbn [lua_eq]. by rewrite bool_decide_eq_true_2.
Qed.

Lemma UnlockLuaScript_mismatch (k a : string) (m : gmap string Entry) (e : Entry) :
  m !! k = Some e → val e ≠ a →
  UnlockLuaScript k a m = (LuaNumber 0, m).
Proof.
  intros Hk Hv. unfold UnlockLuaScript, redis_call_get.
  rewrite Hk. cbn [lua_eq]. by rewrite bool_decide_eq_false_2.
Qed.

Lemma UnlockLuaScript_absent (k a : string) (m : gmap string Entry) :
  m !! k = None → UnlockLuaScript k a m = (LuaNumber 0, m).
Proof.
  intros Hk. unfold UnlockLuaScript, redis_call_get. by rewrite Hk.
Qed.

(** The script has two outcomes only: it removed a record that held the
    argument and says 1, or it changed nothing and says 0. *)
Lemma UnlockLuaScript_cases (k a : string) (m : gmap string Entry) :
  (∃ e, m !! k = Some e ∧ val e = a ∧ UnlockLuaScript k a m = (LuaNumber 1, delete k m))
  ∨ ((∀ e, m !! k = Some e → val e ≠ a) ∧ UnlockLuaScript k a m = (LuaNumber 0, m)).
Proof.
  destruct (m !! k) as [e|] eqn:Hk.
  - destruct (decide (val e = a)) as [Hv|Hv].
    + left. exists e. eauto using UnlockLuaScript_match.
    + right. split; [by intros e' [= <-]|]. by apply (UnlockLuaScript_mismatch k a m e).
  - right. split; [done|]. by apply UnlockLuaScript_absent.
Qed.

Lemma Eval_run (c : redis_Client)
    (script : string → string → gmap string Entry → lua_value * gmap string Entry)
    (k a : string) (s : State) :
  let out := script k a (store s) in
  let r := match upcoming_fault s with
           | NoFault => reply_result (lua_to_reply out.1)
           | SendFails msg | ReplyLost msg => (I_nil, Some (StoreError msg))
           end in
  let m := match upcoming_fault s with
           | SendFails _ => store s
           | _ => out.2
           end in
  Eval (Some c) script k a s
  = Ret (r, mkState (heap s) m (tail (faults s)) (others s)
                    (trace s ++ [EvEval k a r.1 r.2])).
Proof.
  destruct s as [h m f e t]. unfold upcoming_fault.
  unfold Eval, next_fault, on_store, log, modify, mbind, M_bind, mret, M_ret.
  cbn [heap store faults others trace hd tail].
  destruct f as [|[| |] f]; cbn [hd tail set_faults set_store set_trace heap store faults others trace];
    destruct (script k a m) as [v m']; reflexivity.
Qed.

(** C8: when the record exists under the key and holds the instance's
    token, [Unlock] deletes it and returns no error. *)
Theorem Unlock_matching_token_deletes
    (d : DistributedMutex) (c : redis_Client) (s : State) (e : Entry) :
  Client d = Some c → upcoming_fault s = NoFault →
  store s !! Key d = Some e → val e = Value d →
  ∃ s', Unlock d s = Ret (None, s') ∧
    store s' = delete (Key d) (store s) ∧
    store s' !! Key d = None ∧
    trace s' = trace s ++ [EvEval (Key d) (Value d) (I_int64 1) None].
Proof.
  intros Hc Hf Hk Hv. unfold Unlock. rewrite Hc.
  rewrite (bind_Ret _ _ _ _ _ (Eval_run c UnlockLuaScript (Key d) (Value d) s)).
  rewrite Hf, (UnlockLuaScript_match _ _ _ e Hk Hv).
  cbn. eexists. split; [reflexivity|]. cbn.
  split; [done|]. split; [apply lookup_delete_eq|done].
Qed.

Lemma Unlock_matching_token_deletes_witness :
  ∃ s', Unlock (Examples.mutex "job-1" "req-A")
               (Examples.state0 (mkOptions 5000000000 0 100000000)
                                {[ "job-1" := mkEntry "req-A" 5000000000 ]})
        = Ret (None, s') ∧
    store s' = delete "job-1" ({[ "job-1" := mkEntry "req-A" 5000000000 ]} : gmap string Entry) ∧
    store s' !! "job-1" = None ∧
    trace s' = [EvEval "job-1" "req-A" (I_int64 1) None].
Proof.
  refine (Unlock_matching_token_deletes (Examples.mutex "job-1" "req-A")
           (mkClient "127.0.0.1:6379")
           (Examples.state0 (mkOptions 5000000000 0 100000000)
                            {[ "job-1" := mkEntry "req-A" 5000000000 ]})
           (mkEntry "req-A" 5000000000) _ _ _ _); reflexivity.
Defined.

(** C4: when the record exists under the key but holds another value than
    the instance's token, [Unlock] returns [ErrUnlockFailed] and the record
    stays in the store with its original value. *)
Theorem Unlock_other_token_fails
    (d : DistributedMutex) (c : redis_Client) (s : State) (e : Entry) :
  Client d = Some c → upcoming_fault s = NoFault →
  store s !! Key d = Some e → val e ≠ Value d →
  ∃ s', Unlock d s = Ret (Some ErrUnlockFailed, s') ∧
    store s' = store s ∧
    store s' !! Key d = Some e.
Proof.
  intros Hc Hf Hk Hv. unfold Unlock. rewrite Hc.
  rewrite (bind_Ret _ _ _ _ _ (Eval_run c UnlockLuaScript (Key d) (Value d) s)).
  rewrite Hf, (UnlockLuaScript_mismatch _ _ _ e Hk Hv).
  cbn. eexists. split; [reflexivity|]. cbn. done.
Qed.

Lemma Unlock_other_token_fails_witness :
  ∃ s', Unlock (Examples.mutex "job-1" "req-B")
               (Examples.state0 (mkOptions 5000000000 0 100000000)
                                {[ "job-1" := mkEntry "req-A" 5000000000 ]})
        = Ret (Some ErrUnlockFailed, s') ∧
    store s' = {[ "job-1" := mkEntry "req-A" 5000000000 ]} ∧
    store s' !! "job-1" = Some (mkEntry "req-A" 5000000000).
Proof.
  refine (Unlock_other_token_fails (Examples.mutex "job-1" "req-B")
           (mkClient "127.0.0.1:6379")
           (Examples.state0 (mkOptions 5000000000 0 100000000)
                            {[ "job-1" := mkEntry "req-A" 5000000000 ]})
           (mkEntry "req-A" 5000000000) _ _ _ _);
    [reflexivity|reflexivity|reflexivity|].
  cbn. discriminate.
Defined.

(** C1 (as the code behaves): when no record exists under the key, the
    script's [get] yields Lua [false], the comparison fails and the script
    returns 0, so [Unlock] returns [ErrUnlockFailed], the same error as for
    a token mismatch, and not [ErrUnlockKeyExpired]; the store is left
    unchanged. *)
Theorem Unlock_absent_key_reports_UnlockFailed
    (d : DistributedMutex) (c : redis_Client) (s : State) :
  Client d = Some c → upcoming_fault s = NoFault →
  store s !! Key d = None →
  ∃ s', Unlock d s = Ret (Some ErrUnlockFailed, s') ∧
    store s' = store s ∧
    trace s' = trace s ++ [EvEval (Key d) (Value d) (I_int64 0) None].
Proof.
  intros Hc Hf Hk. unfold Unlock. rewrite Hc.
  rewrite (bind_Ret _ _ _ _ _ (Eval_run c UnlockLuaScript (Key d) (Value d) s)).
  rewrite Hf, (UnlockLuaScript_absent _ _ _ Hk).
  cbn. eexists. split; [reflexivity|]. cbn. done.
Qed.

Lemma Unlock_absent_key_example :
  ∃ s', Unlock (Examples.mutex "job-1" "req-A")
               (Examples.state0 (mkOptions 5000000000 0 100000000) ∅)
        = Ret (Some ErrUnlockFailed, s') ∧
    store s' = ∅ ∧
    trace s' = [EvEval "job-1" "req-A" (I_int64 0) None].
Proof.
  refine (Unlock_absent_key_reports_UnlockFailed (Examples.mutex "job-1" "req-A")
           (mkClient "127.0.0.1:6379")
           (Examples.state0 (mkOptions 5000000000 0 100000000) ∅) _ _ _); reflexivity.
Defined.

(** X1: the branch of [Unlock] that returns [ErrUnlockKeyExpired] is never
    taken: no run of [Unlock] returns that error, since the script returns
    a number in both of its branches, so the client never sees a nil
    reply. *)
Lemma Unlock_never_KeyExpired (d : DistributedMutex) (s s' : State) (r : option error) :
  Unlock d s = Ret (r, s') → r ≠ Some ErrUnlockKeyExpired.
Proof.
  unfold Unlock. destruct (Client d) as [c|] eqn:Hc; [|done].
  rewrite (bind_Ret _ _ _ _ _ (Eval_run c UnlockLuaScript (Key d) (Value d) s)).
  destruct (UnlockLuaScript_cases (Key d) (Value d) (store s))
    as [(e & _ & _ & ->) | (_ & ->)];
    destruct (upcoming_fault s); cbn; intros [= <- _]; discriminate.
Qed.

(** The keyspace after [Unlock], whatever the transport does: untouched,
    or what the script made of it. *)
Lemma Unlock_store (d : DistributedMutex) (s s' : State) (r : option error) :
  Unlock d s = Ret (r, s') →
  store s' = store s ∨ store s' = (UnlockLuaScript (Key d) (Value d) (store s)).2.
Proof.
  unfold Unlock. destruct (Client d) as [c|] eqn:Hc; [|done].
  rewrite (bind_Ret _ _ _ _ _ (Eval_run c UnlockLuaScript (Key d) (Value d) s)).
  destruct (UnlockLuaScript_cases (Key d) (Value d) (store s))
    as [(e & _ & _ & ->) | (_ & ->)];
    destruct (upcoming_fault s); cbn; intros [= _ <-]; cbn; auto.
Qed.

(** C3: the release logic deletes a lock record only when the token it
    presents equals the token stored under the key.  In every run of
    [Unlock]: if the key is absent or holds another value the store is
    unchanged; if the store changed at all, the key held the instance's
    token and the change is the deletion of that key; no other key is
    touched. *)
Theorem Unlock_deletes_only_matching_token
    (d : DistributedMutex) (s s' : State) (r : option error) :
  Unlock d s = Ret (r, s') →
  ((∀ e, store s !! Key d = Some e → val e ≠ Value d) → store s' = store s) ∧
  (store s' ≠ store s →
     ∃ e, store s !! Key d = Some e ∧ val e = Value d ∧
          store s' = delete (Key d) (store s)) ∧
  (∀ k, k ≠ Key d → store s' !! k = store s !! k).
Proof.
  intros H. apply Unlock_store in H.
  destruct (UnlockLuaScript_cases (Key d) (Value d) (store s))
    as [(e & He & Hv & Hs) | (Hne & Hs)]; rewrite Hs in H; cbn in H.
  - split; [|split].
    + intros Hne. by destruct (Hne e He).
    + intros Hch. destruct H as [H|H]; [done|]. by exists e.
    + intros k Hk. destruct H as [->| ->]; [done|]. by apply lookup_delete_ne.
  - assert (Heq : store s' = store s) by (by destruct H).
    split; [done|]. split; [done|]. intros k _. by rewrite Heq.
Qed.

Lemma Unlock_deletes_only_matching_token_witness :
  let s := Examples.state0 (mkOptions 5 0 1) {[ "job-1" := mkEntry "req-A" 5 ]} in
  let s' := mkState {[ 1%positive := mkOptions 5 0 1 ]} ∅ [] []
                    [EvEval "job-1" "req-A" (I_int64 1) None] in
  Unlock (Examples.mutex "job-1" "req-A") s = Ret (None, s') ∧
  ((∀ e, store s !! "job-1" = Some e → val e ≠ "req-A") → store s' = store s) ∧
  (store s' ≠ store s →
     ∃ e, store s !! "job-1" = Some e ∧ val e = "req-A" ∧
          store s' = delete "job-1" (store s)) ∧
  (∀ k, k ≠ "job-1" → store s' !! k = store s !! k).
Proof.
  split; [reflexivity|].
  refine (Unlock_deletes_only_matching_token (Examples.mutex "job-1" "req-A")
            (Examples.state0 (mkOptions 5 0 1) {[ "job-1" := mkEntry "req-A" 5 ]})
            (mkState {[ 1%positive := mkOptions 5 0 1 ]} ∅ [] []
                     [EvEval "job-1" "req-A" (I_int64 1) None])
            None _).
  reflexivity.
Defined.

(** ** Acquisition *)

Lemma SetNX_run (c : redis_Client) (k v : string) (t : Z) (s : State) :
  let out := redis_set_nx k v t (store s) in
  let r := match upcoming_fault s with
           | NoFault => (out.1, None)
           | SendFails msg | ReplyLost msg => (false, Some (StoreError msg))
           end in
  let m := match upcoming_fault s with
           | SendFails _ => store s
           | _ => out.2
           end in
  SetNX (Some c) k v t s
  = Ret (r, mkState (heap s) m (tail (faults s)) (others s)
                    (trace s ++ [EvSetNX k v t r.1 r.2])).
Proof.
  destruct s as [h m f e tr]. unfold upcoming_fault.
  unfold SetNX, next_fault, on_store, log, modify, mbind, M_bind, mret, M_ret.
  cbn [heap store faults others trace hd tail].
  destruct f as [|[| |] f]; cbn [hd tail set_faults set_store set_trace heap store faults others trace];
    destruct (redis_set_nx k v t m) as [b m']; reflexivity.
Qed.

Lemma load_Opt (d : DistributedMutex) (l : loc) (o : Options) (s : State)
    (field : Options → Z) :
  Opt d = Some l → heap s !! l = Some o → load (Opt d) field s = Ret (field o, s).
Proof. intros ->. apply load_Some. Qed.

Lemma tryLock_run (d : DistributedMutex) (l : loc) (o : Options) (s : State) :
  Opt d = Some l → heap s !! l = Some o →
  tryLock d s = SetNX (Client d) (Key d) (Value d) (Expiration o) s.
Proof.
  intros Hp Hl. unfold tryLock.
  by rewrite (bind_Ret _ _ _ _ _ (load_Opt d l o s Expiration Hp Hl)).
Qed.

Lemma Sleep_run (delay : Z) (s : State) :
  Sleep delay s
  = Ret (tt, mkState (heap s)
               (match others s with
                | [] => store s
                | acts :: _ => foldl apply_action (store s) acts
                end)
               (faults s) (tail (others s)) (trace s ++ [EvSleep delay])).
Proof.
  destruct s as [h m f e tr].
  unfold Sleep, log, modify, mbind, M_bind, mret, M_ret.
  cbn [heap store faults others trace set_trace].
  by destruct e.
Qed.

Lemma lock_loop_unfold (d : DistributedMutex) (fuel : nat) (retryCount : Z) :
  lock_loop d fuel retryCount
  = (r ← tryLock d;
     match r with
     | (_, Some err) => mret (Some err)
     | (true, None) => mret None
     | (false, None) =>
         if retryCount <=? 0 then mret (Some ErrLockNotAcquired)
         else
           match fuel with
           | O => out_of_fuel
           | S fuel' =>
               delay ← load (Opt d) RetryDelay;
               Sleep delay;;
               lock_loop d fuel' (retryCount - 1)
           end
     end).
Proof. by destruct fuel. Qed.

(** C7: on a key with no record (and a transport that delivers the
    command), the first create-if-absent attempt succeeds: [Lock] returns
    no error after exactly one attempt and no sleep, and the store then
    maps the key to the instance's token with a TTL equal to the
    [Expiration] of the instance's policy. *)
Theorem Lock_free_key_first_attempt
    (d : DistributedMutex) (c : redis_Client) (l : loc) (o : Options) (s : State) :
  Opt d = Some l → heap s !! l = Some o → Client d = Some c →
  upcoming_fault s = NoFault → store s !! Key d = None →
  ∃ s', Lock d s = Ret (None, s') ∧
    trace s' = trace s ++ [EvSetNX (Key d) (Value d) (Expiration o) true None] ∧
    store s' = <[Key d := mkEntry (Value d) (Expiration o)]> (store s) ∧
    store s' !! Key d = Some (mkEntry (Value d) (Expiration o)).
Proof.
  intros Hp Hl Hc Hf Hk. unfold Lock.
  rewrite (bind_Ret _ _ _ _ _ (load_Opt d l o s RetryCount Hp Hl)).
  rewrite lock_loop_unfold.
  erewrite bind_Ret; [|rewrite (tryLock_run d l o s Hp Hl), Hc; apply SetNX_run].
  rewrite Hf. unfold redis_set_nx. rewrite Hk. cbn.
  eexists. split; [reflexivity|]. cbn.
  split; [done|]. split; [done|]. apply lookup_insert_eq.
Qed.

Lemma Lock_free_key_first_attempt_witness :
  let s0 := Examples.state0 (mkOptions 0 0 0) ∅ in
  let s := Examples.state0 (mkOptions 5000000000 0 100000000) ∅ in
  let d := Examples.mutex "job-1" "req-A" in
  NewDistributedMutex "job-1" "req-A" Examples.client (Some 1%positive) s0 = Ret (d, s) ∧
  ∃ s', Lock d s = Ret (None, s') ∧
    trace s' = [EvSetNX "job-1" "req-A" 5000000000 true None] ∧
    store s' = {[ "job-1" := mkEntry "req-A" 5000000000 ]} ∧
    store s' !! "job-1" = Some (mkEntry "req-A" 5000000000).
Proof.
  split; [reflexivity|].
  refine (Lock_free_key_first_attempt (Examples.mutex "job-1" "req-A")
            (mkClient "127.0.0.1:6379") 1%positive
            (mkOptions 5000000000 0 100000000)
            (Examples.state0 (mkOptions 5000000000 0 100000000) ∅) _ _ _ _ _);
    reflexivity.
Defined.

Lemma attempts_contended_run (k v : string) (t delay : Z) (n : nat) :
  attempts (contended_run k v t delay n) = S n.
Proof. induction n as [|n IH]; cbn; [done|]. by rewrite IH. Qed.

Lemma foldl_apply_action_other (k : string) (acts : list env_action) (m : gmap string Entry) :
  forallb (λ a, bool_decide (action_key a ≠ k)) acts = true →
  foldl apply_action m acts !! k = m !! k.
Proof.
  revert m. induction acts as [|a acts IH]; intros m H; cbn in *; [done|].
  apply andb_prop in H as [Ha H]. apply bool_decide_eq_true_1 in Ha.
  rewrite (IH _ H). destruct a as [k' v t|k']; cbn in *.
  - by apply lookup_insert_ne.
  - by apply lookup_delete_ne.
Qed.

(** The loop of [Lock], for an instance whose pointers are valid. *)
Section loop.
Context (d : DistributedMutex) (c : redis_Client) (l : loc) (o : Options).
Context (Hp : Opt d = Some l) (Hc : Client d = Some c).

(** Run the attempt a loop iteration starts with. *)
Ltac attempt_with Hl :=
  rewrite lock_loop_unfold;
  (erewrite bind_Ret; [|rewrite (tryLock_run d l o _ Hp Hl), Hc; apply SetNX_run]).

(** Every run of the loop returns, whatever the transport and the other
    clients do; it makes at most one attempt more than its counter allows
    retries; and an attempt on which the client fails is the last event of
    the run, its error being the result. *)
Lemma lock_loop_total (fuel : nat) (rc : Z) (s : State) :
    heap s !! l = Some o → (Z.to_nat rc ≤ fuel)%nat →
    ∃ r s' evs, lock_loop d fuel rc s = Ret (r, s') ∧
      trace s' = trace s ++ evs ∧
      (attempts evs ≤ Z.to_nat rc + 1)%nat ∧
      (∀ i ev e, evs !! i = Some ev → client_error ev = Some e →
                 r = Some e ∧ S i = length evs).
Proof.
  revert rc s. induction fuel as [|fuel IH]; intros rc s Hl Hfuel;
    attempt_with Hl.
  all: destruct (upcoming_fault s) as [|msg|msg];
    [destruct (redis_set_nx _ _ _ (store s)).1; [|destruct (rc <=? 0) eqn:Hrc]| |].
  all: try (eexists _, _, [_]; split; [reflexivity|];
            split; [reflexivity|]; split; [cbn; lia|];
            intros [|i] ev e Hi He; cbn in Hi; [|done];
            injection Hi as <-; cbn in He; (done || by injection He as <-)).
  - apply Z.leb_gt in Hrc. lia.
  - apply Z.leb_gt in Hrc. cbn.
    set (s1 := mkState _ _ _ _ _).
    assert (Hl1 : heap s1 !! l = Some o) by done.
    rewrite (bind_Ret _ _ _ _ _ (load_Opt d l o s1 RetryDelay Hp Hl1)).
    rewrite (bind_Ret _ _ _ _ _ (Sleep_run _ s1)).
    set (s2 := mkState _ _ _ _ _).
    destruct (IH (rc - 1) s2) as (r & s' & evs & Hrun & Htr & Hn & Herr); [done|lia|].
    exists r, s', (EvSetNX (Key d) (Value d) (Expiration o) false None
                    :: EvSleep (RetryDelay o) :: evs).
    split; [done|]. split.
    { rewrite Htr. subst s2 s1. cbn. by rewrite <- !app_assoc. }
    split; [cbn; lia|].
    intros [|[|i]] ev e Hi He; cbn in Hi.
    + by injection Hi as <-.
    + by injection Hi as <-.
    + destruct (Herr i ev e Hi He) as [-> Hlen]. split; [done|]. cbn. lia.
Qed.

(** The loop on a key that stays held: every attempt fails, and the run
    is the first attempt followed by one sleep and one attempt per
    retry. *)
Lemma lock_loop_contended (e : Entry) (fuel : nat) (rc : Z) (s : State) :
    heap s !! l = Some o → (Z.to_nat rc ≤ fuel)%nat →
    store s !! Key d = Some e →
    transport_reliable s = true → key_undisturbed (Key d) s = true →
    ∃ s', lock_loop d fuel rc s = Ret (Some ErrLockNotAcquired, s') ∧
      trace s' = trace s ++ contended_run (Key d) (Value d) (Expiration o)
                              (RetryDelay o) (Z.to_nat rc) ∧
      store s' !! Key d = Some e.
Proof.
  revert rc s. induction fuel as [|fuel IH]; intros rc s Hl Hfuel Hk Hf Ho;
    attempt_with Hl.
  all: assert (Hf0 : upcoming_fault s = NoFault)
    by (unfold upcoming_fault, transport_reliable in *;
        destruct (faults s) as [|[| |] fs]; cbn in *; done).
  all: rewrite Hf0; unfold redis_set_nx; rewrite Hk; cbn [fst snd].
  all: destruct (rc <=? 0) eqn:Hrc;
    [apply Z.leb_le in Hrc; replace (Z.to_nat rc) with O by lia;
     eexists; split; [reflexivity|]; by cbn | apply Z.leb_gt in Hrc].
  - lia.
  - set (s1 := mkState _ _ _ _ _).
    assert (Hl1 : heap s1 !! l = Some o) by done.
    rewrite (bind_Ret _ _ _ _ _ (load_Opt d l o s1 RetryDelay Hp Hl1)).
    rewrite (bind_Ret _ _ _ _ _ (Sleep_run _ s1)).
    set (s2 := mkState _ _ _ _ _).
    destruct (IH (rc - 1) s2) as (s' & Hrun & Htr & Hk'); [done|lia| | | |].
    + subst s2 s1. cbn. unfold key_undisturbed in Ho.
      destruct (others s) as [|acts rest]; [done|]. cbn in Ho.
      apply andb_prop in Ho as [Ha _]. by rewrite foldl_apply_action_other.
    + unfold transport_reliable in *. subst s2 s1. cbn.
      destruct (faults s) as [|f fs]; [done|]. cbn in Hf.
      by apply andb_prop in Hf as [_ Hf].
    + unfold key_undisturbed in *. subst s2 s1. cbn.
      destruct (others s) as [|acts rest]; [done|]. cbn in Ho.
      by apply andb_prop in Ho as [_ Ho].
    + exists s'. split; [done|]. split; [|done].
      rewrite Htr. subst s2 s1. cbn.
      replace (Z.to_nat rc) with (S (Z.to_nat (rc - 1))) by lia.
      cbn. by rewrite <- !app_assoc.
Qed.

(** A transport failure on an attempt, the first or a later one, ends the
    loop of [Lock] there: the error is the result and the failed attempt
    is the only event added. *)
Lemma lock_loop_transport_failure (fuel : nat) (rc : Z) (s : State) (msg : string) :
  heap s !! l = Some o →
  upcoming_fault s = SendFails msg ∨ upcoming_fault s = ReplyLost msg →
  ∃ s', lock_loop d fuel rc s = Ret (Some (StoreError msg), s') ∧
    trace s' = trace s ++ [EvSetNX (Key d) (Value d) (Expiration o) false
                                   (Some (StoreError msg))].
Proof.
  intros Hl Hf. attempt_with Hl.
  destruct Hf as [-> | ->]; cbn; eexists; (split; [reflexivity|]); done.
Qed.

End loop.

(** C2: for a resolved policy with [RetryCount = N ≥ 0], every run of
    [Lock] returns after at most [N + 1] create-if-absent attempts,
    whatever the transport and the other clients do; and when the key is
    held and stays held (under any token, in particular another one than
    the instance's) and the transport delivers every command, the run is
    exactly [N + 1] failed attempts with a sleep of [RetryDelay] between
    consecutive ones, and the result is [ErrLockNotAcquired]. *)
Theorem Lock_bounded_retries
    (d : DistributedMutex) (c : redis_Client) (l : loc) (o : Options) (s : State) :
  Opt d = Some l → heap s !! l = Some o → Client d = Some c →
  0 ≤ RetryCount o →
  ∃ r s' evs, Lock d s = Ret (r, s') ∧
    trace s' = trace s ++ evs ∧
    Z.of_nat (attempts evs) ≤ RetryCount o + 1 ∧
    (∀ e, store s !! Key d = Some e →
          transport_reliable s = true → key_undisturbed (Key d) s = true →
          r = Some ErrLockNotAcquired ∧
          evs = contended_run (Key d) (Value d) (Expiration o) (RetryDelay o)
                              (Z.to_nat (RetryCount o)) ∧
          Z.of_nat (attempts evs) = RetryCount o + 1 ∧
          store s' !! Key d = Some e).
Proof.
  intros Hp Hl Hc HN. unfold Lock.
  rewrite (bind_Ret _ _ _ _ _ (load_Opt d l o s RetryCount Hp Hl)).
  destruct (lock_loop_total d c l o Hp Hc (Z.to_nat (RetryCount o)) (RetryCount o) s)
    as (r & s' & evs & Hrun & Htr & Hn & _); [done|lia|].
  exists r, s', evs. split; [done|]. split; [done|]. split; [lia|].
  intros e Hk Hf Ho.
  destruct (lock_loop_contended d c l o Hp Hc e (Z.to_nat (RetryCount o))
              (RetryCount o) s) as (s2 & Hrun2 & Htr2 & Hk2); [done|lia|done|done|done|].
  rewrite Hrun in Hrun2. injection Hrun2 as -> ->.
  rewrite Htr in Htr2. apply app_inv_head in Htr2. subst evs.
  split; [done|]. split; [done|]. split; [|done].
  rewrite attempts_contended_run. lia.
Qed.

Lemma Lock_bounded_retries_witness :
  let s := Examples.state0 (mkOptions 5000000000 2 100000000)
                           {[ "job-1" := mkEntry "req-A" 5000000000 ]} in
  let run := [EvSetNX "job-1" "req-B" 5000000000 false None; EvSleep 100000000;
              EvSetNX "job-1" "req-B" 5000000000 false None; EvSleep 100000000;
              EvSetNX "job-1" "req-B" 5000000000 false None] in
  Lock (Examples.mutex "job-1" "req-B") s
    = Ret (Some ErrLockNotAcquired, set_trace run s) ∧
  ∃ r s' evs, Lock (Examples.mutex "job-1" "req-B") s = Ret (r, s') ∧
    trace s' = trace s ++ evs ∧
    Z.of_nat (attempts evs) ≤ 2 + 1 ∧
    (∀ e, store s !! "job-1" = Some e →
          transport_reliable s = true → key_undisturbed "job-1" s = true →
          r = Some ErrLockNotAcquired ∧ evs = run ∧
          Z.of_nat (attempts evs) = 2 + 1 ∧
          store s' !! "job-1" = Some e).
Proof.
  split; [reflexivity|].
  refine (Lock_bounded_retries (Examples.mutex "job-1" "req-B")
            (mkClient "127.0.0.1:6379") 1%positive
            (mkOptions 5000000000 2 100000000)
            (Examples.state0 (mkOptions 5000000000 2 100000000)
                             {[ "job-1" := mkEntry "req-A" 5000000000 ]}) _ _ _ _);
    [reflexivity|reflexivity|reflexivity|].
  cbn. lia.
Defined.

(** ** Failures of the client *)

Lemma Lock_Ret_inv (d : DistributedMutex) (s s' : State) (r : option error) :
  Lock d s = Ret (r, s') →
  ∃ l o c, Opt d = Some l ∧ heap s !! l = Some o ∧ Client d = Some c.
Proof.
  intros H. unfold Lock in H.
  destruct (Opt d) as [l|] eqn:Hp; [|done].
  destruct (heap s !! l) as [o|] eqn:Hl.
  - destruct (Client d) as [c|] eqn:Hc; [by exists l, o, c|].
    rewrite <- Hp in H.
    rewrite (bind_Ret _ _ _ _ _ (load_Opt d l o s RetryCount Hp Hl)) in H.
    rewrite lock_loop_unfold in H.
    rewrite bind_Panic in H; [done|].
    by rewrite (tryLock_run d l o s Hp Hl), Hc.
  - rewrite bind_Panic in H; [done|].
    unfold load. cbn [mbind option_bind]. by rewrite Hl.
Qed.

Lemma Unlock_events (d : DistributedMutex) (s s' : State) (r : option error) :
  Unlock d s = Ret (r, s') →
  ∃ res err, trace s' = trace s ++ [EvEval (Key d) (Value d) res err] ∧
    ∀ msg, err = Some (StoreError msg) → r = Some (StoreError msg).
Proof.
  unfold Unlock. destruct (Client d) as [c|] eqn:Hc; [|done].
  rewrite (bind_Ret _ _ _ _ _ (Eval_run c UnlockLuaScript (Key d) (Value d) s)).
  destruct (UnlockLuaScript_cases (Key d) (Value d) (store s))
    as [(e & _ & _ & ->) | (_ & ->)];
    destruct (upcoming_fault s); cbn; intros [= <- <-]; cbn;
    eexists _, _; (split; [reflexivity|]); by intros msg' [= <-].
Qed.

(** A transport failure on the command of [Unlock] is what [Unlock]
    returns, whether the command reached the server or not. *)
Lemma Unlock_transport_failure
    (d : DistributedMutex) (c : redis_Client) (s : State) (msg : string) :
  Client d = Some c →
  upcoming_fault s = SendFails msg ∨ upcoming_fault s = ReplyLost msg →
  ∃ s', Unlock d s = Ret (Some (StoreError msg), s') ∧
    trace s' = trace s ++ [EvEval (Key d) (Value d) I_nil (Some (StoreError msg))].
Proof.
  intros Hc Hf. unfold Unlock. rewrite Hc.
  rewrite (bind_Ret _ _ _ _ _ (Eval_run c UnlockLuaScript (Key d) (Value d) s)).
  destruct Hf as [-> | ->]; cbn; eexists; (split; [reflexivity|]); done.
Qed.

(** X2: [Lock] terminates: the loop never runs out of the fuel [Lock]
    gives it, whatever the policy, the transport and the other clients. *)
Lemma Lock_terminates (d : DistributedMutex) (s : State) : Lock d s ≠ OutOfFuel.
Proof.
  unfold Lock. destruct (Opt d) as [l|] eqn:Hp; [|done].
  destruct (heap s !! l) as [o|] eqn:Hl.
  - rewrite <- Hp. rewrite (bind_Ret _ _ _ _ _ (load_Opt d l o s RetryCount Hp Hl)).
    destruct (Client d) as [c|] eqn:Hc.
    + destruct (lock_loop_total d c l o Hp Hc (Z.to_nat (RetryCount o)) (RetryCount o) s)
        as (r & s' & evs & -> & _); done.
    + rewrite lock_loop_unfold, bind_Panic; [done|].
      by rewrite (tryLock_run d l o s Hp Hl), Hc.
  - rewrite bind_Panic; [done|].
    unfold load. cbn [mbind option_bind]. by rewrite Hl.
Qed.

Lemma Unlock_never_KeyExpired_witness :
  Some ErrUnlockFailed ≠ Some ErrUnlockKeyExpired.
Proof.
  refine (Unlock_never_KeyExpired (Examples.mutex "job-1" "req-A")
            (Examples.state0 (mkOptions 5000000000 0 100000000) ∅)
            (mkState {[ 1%positive := mkOptions 5000000000 0 100000000 ]} ∅ [] []
                     [EvEval "job-1" "req-A" (I_int64 0) None])
            (Some ErrUnlockFailed) _).
  reflexivity.
Defined.

(** ** Runs with their final state *)

Lemma Lock_unfold (d : DistributedMutex) (l : loc) (o : Options) (s : State) :
  Opt d = Some l → heap s !! l = Some o →
  Lock d s = lock_loop d (Z.to_nat (RetryCount o)) (RetryCount o) s.
Proof.
  intros Hp Hl. unfold Lock.
  by rewrite (bind_Ret _ _ _ _ _ (load_Opt d l o s RetryCount Hp Hl)).
Qed.

Lemma Lock_free_state
    (d : DistributedMutex) (c : redis_Client) (l : loc) (o : Options) (s : State) :
  Opt d = Some l → heap s !! l = Some o → Client d = Some c →
  upcoming_fault s = NoFault → store s !! Key d = None →
  Lock d s
  = Ret (None, mkState (heap s)
                 (<[Key d := mkEntry (Value d) (Expiration o)]> (store s))
                 (tail (faults s)) (others s)
                 (trace s ++ [EvSetNX (Key d) (Value d) (Expiration o) true None])).
Proof.
  intros Hp Hl Hc Hf Hk. rewrite (Lock_unfold d l o s Hp Hl), lock_loop_unfold.
  erewrite bind_Ret; [|rewrite (tryLock_run d l o s Hp Hl), Hc; apply SetNX_run].
  rewrite Hf. unfold redis_set_nx. by rewrite Hk.
Qed.

Lemma Lock_held_state
    (d : DistributedMutex) (c : redis_Client) (l : loc) (o : Options) (s : State)
    (e : Entry) :
  Opt d = Some l → heap s !! l = Some o → Client d = Some c →
  upcoming_fault s = NoFault → store s !! Key d = Some e → RetryCount o ≤ 0 →
  Lock d s
  = Ret (Some ErrLockNotAcquired,
         mkState (heap s) (store s) (tail (faults s)) (others s)
                 (trace s ++ [EvSetNX (Key d) (Value d) (Expiration o) false None])).
Proof.
  intros Hp Hl Hc Hf Hk Hrc. rewrite (Lock_unfold d l o s Hp Hl), lock_loop_unfold.
  erewrite bind_Ret; [|rewrite (tryLock_run d l o s Hp Hl), Hc; apply SetNX_run].
  rewrite Hf. unfold redis_set_nx. rewrite Hk. cbn [fst snd].
  by rewrite (proj2 (Z.leb_le _ _) Hrc).
Qed.

Lemma Unlock_match_state
    (d : DistributedMutex) (c : redis_Client) (s : State) (e : Entry) :
  Client d = Some c → upcoming_fault s = NoFault →
  store s !! Key d = Some e → val e = Value d →
  Unlock d s
  = Ret (None, mkState (heap s) (delete (Key d) (store s)) (tail (faults s))
                 (others s)
                 (trace s ++ [EvEval (Key d) (Value d) (I_int64 1) None])).
Proof.
  intros Hc Hf Hk Hv. unfold Unlock. rewrite Hc.
  rewrite (bind_Ret _ _ _ _ _ (Eval_run c UnlockLuaScript (Key d) (Value d) s)).
  by rewrite Hf, (UnlockLuaScript_match _ _ _ e Hk Hv).
Qed.

Lemma Unlock_other_state (d : DistributedMutex) (c : redis_Client) (s : State) :
  Client d = Some c → upcoming_fault s = NoFault →
  (∀ e, store s !! Key d = Some e → val e ≠ Value d) →
  Unlock d s
  = Ret (Some ErrUnlockFailed,
         mkState (heap s) (store s) (tail (faults s)) (others s)
                 (trace s ++ [EvEval (Key d) (Value d) (I_int64 0) None])).
Proof.
  intros Hc Hf Hne. unfold Unlock. rewrite Hc.
  rewrite (bind_Ret _ _ _ _ _ (Eval_run c UnlockLuaScript (Key d) (Value d) s)).
  destruct (UnlockLuaScript_cases (Key d) (Value d) (store s))
    as [(e & He & Hv & _) | (_ & ->)]; [by destruct (Hne e He)|].
  by rewrite Hf.
Qed.

Lemma upcoming_fault_tail (s : State) :
  transport_reliable s = true →
  upcoming_fault s = NoFault ∧
  forallb (λ f, match f with NoFault => true | _ => false end) (tail (faults s)) = true.
Proof.
  unfold transport_reliable, upcoming_fault.
  destruct (faults s) as [|[| |] fs]; cbn; done.
Qed.

Lemma redis_set_nx_created (k v : string) (t : Z) (m : gmap string Entry) :
  (redis_set_nx k v t m).1 = true →
  (redis_set_nx k v t m).2 !! k = Some (mkEntry v t).
Proof.
  unfold redis_set_nx. destruct (m !! k); cbn; [done|].
  intros _. apply lookup_insert_eq.
Qed.

Lemma redis_set_nx_held (k v : string) (t : Z) (m : gmap string Entry) (e : Entry) :
  m !! k = Some e → redis_set_nx k v t m = (false, m).
Proof. intros H. unfold redis_set_nx. by rewrite H. Qed.

(** ** The shape of every run of the loop *)

Section loop_shape.
Context (d : DistributedMutex) (c : redis_Client) (l : loc) (o : Options).
Context (Hp : Opt d = Some l) (Hc : Client d = Some c).

Ltac first_attempt Hl :=
  rewrite lock_loop_unfold;
  (erewrite bind_Ret; [|rewrite (tryLock_run d l o _ Hp Hl), Hc; apply SetNX_run]).

Lemma lock_loop_shape (fuel : nat) (rc : Z) (s : State) :
  heap s !! l = Some o → (Z.to_nat rc ≤ fuel)%nat →
  ∃ r s' evs, lock_loop d fuel rc s = Ret (r, s') ∧
    trace s' = trace s ++ evs ∧
    heap s' = heap s ∧
    (1 ≤ attempts evs ≤ S (Z.to_nat rc))%nat ∧
    slept evs = (Z.of_nat (attempts evs) - 1) * RetryDelay o ∧
    (r = None ∨ r = Some ErrLockNotAcquired ∨ ∃ msg, r = Some (StoreError msg)) ∧
    (r = None →
       store s' !! Key d = Some (mkEntry (Value d) (Expiration o)) ∧
       ∃ pre, evs = pre ++ [EvSetNX (Key d) (Value d) (Expiration o) true None]) ∧
    (r = Some ErrLockNotAcquired → attempts evs = S (Z.to_nat rc)).
Proof.
  revert rc s. induction fuel as [|fuel IH]; intros rc s Hl Hfuel; first_attempt Hl.
  all: destruct (upcoming_fault s) as [|msg|msg];
    [destruct (redis_set_nx _ _ _ (store s)).1 eqn:Hnx;
     [|destruct (rc <=? 0) eqn:Hrc]| |].
  all: try (eexists _, _, [_]; split; [reflexivity|];
            split; [reflexivity|]; split; [reflexivity|];
            split; [cbn; lia|];
            split; [cbn; lia|]; split; [solve [eauto]|]; split;
            [intros Hr;
             first [discriminate Hr
                   |split; [by apply redis_set_nx_created | by exists []]]
            |intros Hr;
             first [discriminate Hr | cbn; apply Z.leb_le in Hrc; lia]]).
  - apply Z.leb_gt in Hrc. lia.
  - apply Z.leb_gt in Hrc. cbn.
    set (s1 := mkState _ _ _ _ _).
    assert (Hl1 : heap s1 !! l = Some o) by done.
    rewrite (bind_Ret _ _ _ _ _ (load_Opt d l o s1 RetryDelay Hp Hl1)).
    rewrite (bind_Ret _ _ _ _ _ (Sleep_run _ s1)).
    set (s2 := mkState _ _ _ _ _).
    destruct (IH (rc - 1) s2)
      as (r & s' & evs & Hrun & Htr & Hh & Hn & Hsl & Hk & Hok & Hna); [done|lia|].
    exists r, s', (EvSetNX (Key d) (Value d) (Expiration o) false None
                    :: EvSleep (RetryDelay o) :: evs).
    split; [done|]. split.
    { rewrite Htr. subst s2 s1. cbn. by rewrite <- !app_assoc. }
    split; [by rewrite Hh|]. split; [cbn; lia|]. split.
    { cbn [slept attempts is_attempt]. rewrite Hsl. lia. }
    split; [done|]. split.
    + intros Hr. destruct (Hok Hr) as [Hst [pre ->]]. split; [done|].
      by exists (EvSetNX (Key d) (Value d) (Expiration o) false None
                 :: EvSleep (RetryDelay o) :: pre).
    + intros Hr. cbn. rewrite (Hna Hr). lia.
Qed.

(** On a key that stays held the loop never succeeds and never touches
    the record, whatever the transport does. *)
Lemma lock_loop_held (e : Entry) (fuel : nat) (rc : Z) (s : State) :
  heap s !! l = Some o → (Z.to_nat rc ≤ fuel)%nat →
  store s !! Key d = Some e → key_undisturbed (Key d) s = true →
  ∃ r s', lock_loop d fuel rc s = Ret (r, s') ∧ r ≠ None ∧
    store s' !! Key d = Some e.
Proof.
  revert rc s. induction fuel as [|fuel IH]; intros rc s Hl Hfuel Hk Ho;
    first_attempt Hl.
  all: rewrite (redis_set_nx_held _ _ _ _ e Hk); cbn [fst snd].
  all: destruct (upcoming_fault s) as [|msg|msg];
    [destruct (rc <=? 0) eqn:Hrc| |].
  all: try (eexists _, _; split; [reflexivity|]; split; [done|]; by cbn).
  - apply Z.leb_gt in Hrc. lia.
  - apply Z.leb_gt in Hrc.
    set (s1 := mkState _ _ _ _ _).
    assert (Hl1 : heap s1 !! l = Some o) by done.
    rewrite (bind_Ret _ _ _ _ _ (load_Opt d l o s1 RetryDelay Hp Hl1)).
    rewrite (bind_Ret _ _ _ _ _ (Sleep_run _ s1)).
    set (s2 := mkState _ _ _ _ _).
    apply IH; [done|lia| |].
    + subst s2 s1. cbn. unfold key_undisturbed in Ho.
      destruct (others s) as [|acts rest]; [done|]. cbn in Ho.
      apply andb_prop in Ho as [Ha _]. by rewrite foldl_apply_action_other.
    + unfold key_undisturbed in *. subst s2 s1. cbn.
      destruct (others s) as [|acts rest]; [done|]. cbn in Ho.
      by apply andb_prop in Ho as [_ Ho].
Qed.

End loop_shape.

Lemma Lock_shape (d : DistributedMutex) (l : loc) (o : Options)
    (s s' : State) (r : option error) :
  Opt d = Some l → heap s !! l = Some o →
  Lock d s = Ret (r, s') →
  ∃ evs, trace s' = trace s ++ evs ∧
    heap s' = heap s ∧
    (1 ≤ attempts evs ≤ S (Z.to_nat (RetryCount o)))%nat ∧
    slept evs = (Z.of_nat (attempts evs) - 1) * RetryDelay o ∧
    (r = None ∨ r = Some ErrLockNotAcquired ∨ ∃ msg, r = Some (StoreError msg)) ∧
    (r = None →
       store s' !! Key d = Some (mkEntry (Value d) (Expiration o)) ∧
       ∃ pre, evs = pre ++ [EvSetNX (Key d) (Value d) (Expiration o) true None]) ∧
    (r = Some ErrLockNotAcquired → attempts evs = S (Z.to_nat (RetryCount o))).
Proof.
  intros Hp Hl H.
  destruct (Lock_Ret_inv d s s' r H) as (l' & o' & c & Hp' & Hl' & Hc).
  rewrite (Lock_unfold d l o s Hp Hl) in H.
  destruct (lock_loop_shape d c l o Hp Hc (Z.to_nat (RetryCount o)) (RetryCount o) s)
    as (r2 & s2 & evs & Hrun & Hrest); [done|lia|].
  rewrite H in Hrun. injection Hrun as <- <-. by exists evs.
Qed.

(** X3: whenever [Lock] returns no error, whatever happened during its
    retries, the last thing it did was a create-if-absent that succeeded,
    and the store then holds the instance's token under the key with the
    policy's [Expiration] as TTL. *)
Theorem Lock_success_holds_record (d : DistributedMutex) (l : loc) (o : Options)
    (s s' : State) :
  Opt d = Some l → heap s !! l = Some o →
  Lock d s = Ret (None, s') →
  store s' !! Key d = Some (mkEntry (Value d) (Expiration o)) ∧
  ∃ pre, trace s' = trace s ++ pre
                    ++ [EvSetNX (Key d) (Value d) (Expiration o) true None].
Proof.
  intros Hp Hl H.
  destruct (Lock_shape d l o s s' None Hp Hl H)
    as (evs & Htr & _ & _ & _ & _ & Hok & _).
  destruct (Hok eq_refl) as [Hst [pre ->]]. split; [done|]. by exists pre.
Qed.



Lemma Lock_success_holds_record_witness :
  let s := mkState {[ 1%positive := mkOptions 5000000000 2 100000000 ]}
                   {[ "job-1" := mkEntry "req-A" 5000000000 ]}
                   [] [[EnvDel "job-1"]] [] in
  let s' := mkState {[ 1%positive := mkOptions 5000000000 2 100000000 ]}
                    {[ "job-1" := mkEntry "req-B" 5000000000 ]} [] []
                    [EvSetNX "job-1" "req-B" 5000000000 false None;
                     EvSleep 100000000;
                     EvSetNX "job-1" "req-B" 5000000000 true None] in
  Lock (Examples.mutex "job-1" "req-B") s = Ret (None, s') ∧
  store s' !! "job-1" = Some (mkEntry "req-B" 5000000000) ∧
  ∃ pre, trace s' = trace s ++ pre
                    ++ [EvSetNX "job-1" "req-B" 5000000000 true None].
Proof.
  split; [reflexivity|].
  refine (Lock_success_holds_record (Examples.mutex "job-1" "req-B") 1%positive
            (mkOptions 5000000000 2 100000000)
            (mkState {[ 1%positive := mkOptions 5000000000 2 100000000 ]}
                     {[ "job-1" := mkEntry "req-A" 5000000000 ]}
                     [] [[EnvDel "job-1"]] [])
            _ _ _ _); reflexivity.
Defined.

(** X6: neither [Lock] nor [Unlock] ever writes the policy: the heap,
    and with it the instance's [Options], is the same after every run. *)
Theorem Lock_Unlock_preserve_policy
    (op : DistributedMutex → M (option error))
    (d : DistributedMutex) (s s' : State) (r : option error) :
  op = Lock ∨ op = Unlock →
  op d s = Ret (r, s') →
  heap s' = heap s.
Proof.
  intros [-> | ->] H.
  - destruct (Lock_Ret_inv d s s' r H) as (l & o & c & Hp & Hl & Hc).
    by destruct (Lock_shape d l o s s' r Hp Hl H) as (evs & _ & Hh & _).
  - unfold Unlock in H. destruct (Client d) as [c|] eqn:Hc; [|done].
    rewrite (bind_Ret _ _ _ _ _ (Eval_run c UnlockLuaScript (Key d) (Value d) s)) in H.
    destruct (UnlockLuaScript_cases (Key d) (Value d) (store s))
      as [(e & _ & _ & Hs) | (_ & Hs)]; rewrite Hs in H;
      destruct (upcoming_fault s); cbn in H; by injection H as _ <-.
Qed.

Lemma Lock_Unlock_preserve_policy_witness :
  heap (mkState {[ 1%positive := mkOptions 5000000000 0 100000000 ]} ∅ [] []
                [EvEval "job-1" "req-A" (I_int64 1) None])
  = heap (Examples.state0 (mkOptions 5000000000 0 100000000)
                          {[ "job-1" := mkEntry "req-A" 5000000000 ]}).
Proof.
  refine (Lock_Unlock_preserve_policy Unlock (Examples.mutex "job-1" "req-A")
            (Examples.state0 (mkOptions 5000000000 0 100000000)
                             {[ "job-1" := mkEntry "req-A" 5000000000 ]})
            _ None _ _).
  - right. reflexivity.
  - reflexivity.
Defined.

(** X7: with a [RetryCount] of zero or less (also a negative one written
    into the options after construction) [Lock] makes exactly one attempt
    and never sleeps, whatever the attempt's outcome. *)
Theorem Lock_single_attempt_without_retries
    (d : DistributedMutex) (l : loc) (o : Options) (s s' : State) (r : option error) :
  Opt d = Some l → heap s !! l = Some o → RetryCount o ≤ 0 →
  Lock d s = Ret (r, s') →
  ∃ ok err, trace s' = trace s ++ [EvSetNX (Key d) (Value d) (Expiration o) ok err] ∧
    others s' = others s.
Proof.
  intros Hp Hl Hrc H.
  destruct (Lock_Ret_inv d s s' r H) as (l' & o' & c & Hp' & Hl' & Hc).
  rewrite (Lock_unfold d l o s Hp Hl), lock_loop_unfold in H.
  erewrite bind_Ret in H; [|rewrite (tryLock_run d l o s Hp Hl), Hc; apply SetNX_run].
  rewrite (proj2 (Z.leb_le _ _) Hrc) in H.
  destruct (upcoming_fault s);
    [destruct (redis_set_nx _ _ _ (store s)).1| |];
    cbn in H; injection H as _ <-; by eexists _, _.
Qed.

Lemma Lock_single_attempt_without_retries_witness :
  let s := Examples.state0 (mkOptions 5000000000 (-4) 100000000)
                           {[ "job-1" := mkEntry "req-A" 5000000000 ]} in
  ∃ ok err,
    trace (set_trace [EvSetNX "job-1" "req-B" 5000000000 false None] s)
    = trace s ++ [EvSetNX "job-1" "req-B" 5000000000 ok err] ∧
    others (set_trace [EvSetNX "job-1" "req-B" 5000000000 false None] s) = others s.
Proof.
  refine (Lock_single_attempt_without_retries (Examples.mutex "job-1" "req-B")
            1%positive (mkOptions 5000000000 (-4) 100000000)
            (Examples.state0 (mkOptions 5000000000 (-4) 100000000)
                             {[ "job-1" := mkEntry "req-A" 5000000000 ]})
            _ (Some ErrLockNotAcquired) _ _ _ _);
    [reflexivity|reflexivity|cbn; lia|reflexivity].
Defined.

(** X8: mutual exclusion.  While a record with another token sits under
    the key and nobody else disturbs it, an instance can neither acquire
    the lock nor remove the record: [Lock] and [Unlock] both return an
    error and the record is still there afterwards, whatever the transport
    does and however many retries the policy allows. *)
Theorem other_token_cannot_take_or_remove
    (op : DistributedMutex → M (option error))
    (d : DistributedMutex) (s s' : State) (r : option error) (e : Entry) :
  op = Lock ∨ op = Unlock →
  store s !! Key d = Some e → val e ≠ Value d →
  key_undisturbed (Key d) s = true →
  op d s = Ret (r, s') →
  r ≠ None ∧ store s' !! Key d = Some e.
Proof.
  intros [-> | ->] Hk Hv Ho H.
  - destruct (Lock_Ret_inv d s s' r H) as (l & o & c & Hp & Hl & Hc).
    rewrite (Lock_unfold d l o s Hp Hl) in H.
    destruct (lock_loop_held d c l o Hp Hc e (Z.to_nat (RetryCount o)) (RetryCount o) s)
      as (r2 & s2 & Hrun & Hr & Hst); [done|lia|done|done|].
    rewrite H in Hrun. by injection Hrun as <- <-.
  - unfold Unlock in H. destruct (Client d) as [c|] eqn:Hc; [|done].
    rewrite (bind_Ret _ _ _ _ _ (Eval_run c UnlockLuaScript (Key d) (Value d) s)) in H.
    rewrite (UnlockLuaScript_mismatch _ _ _ e Hk Hv) in H.
    destruct (upcoming_fault s); cbn in H; by injection H as <- <-.
Qed.

Lemma other_token_cannot_take_or_remove_witness :
  let s := mkState {[ 1%positive := mkOptions 5000000000 1 100000000 ]}
                   {[ "job-1" := mkEntry "req-A" 5000000000 ]}
                   [NoFault; ReplyLost "connection reset"] [[EnvSet "job-2" "x" 7]] [] in
  let s' := mkState {[ 1%positive := mkOptions 5000000000 1 100000000 ]}
                    {[ "job-1" := mkEntry "req-A" 5000000000;
                       "job-2" := mkEntry "x" 7 ]} [] []
                    [EvSetNX "job-1" "req-B" 5000000000 false None;
                     EvSleep 100000000;
                     EvSetNX "job-1" "req-B" 5000000000 false
                             (Some (StoreError "connection reset"))] in
  Lock (Examples.mutex "job-1" "req-B") s
    = Ret (Some (StoreError "connection reset"), s') ∧
  Some (StoreError "connection reset") ≠ None ∧
  store s' !! "job-1" = Some (mkEntry "req-A" 5000000000).
Proof.
  split; [reflexivity|].
  refine (other_token_cannot_take_or_remove Lock (Examples.mutex "job-1" "req-B")
            (mkState {[ 1%positive := mkOptions 5000000000 1 100000000 ]}
                     {[ "job-1" := mkEntry "req-A" 5000000000 ]}
                     [NoFault; ReplyLost "connection reset"]
                     [[EnvSet "job-2" "x" 7]] [])
            _ (Some (StoreError "connection reset"))
            (mkEntry "req-A" 5000000000) _ _ _ _ _).
  - left. reflexivity.
  - reflexivity.
  - cbn. discriminate.
  - reflexivity.
  - reflexivity.
Defined.

(** X9: [Unlock] returns no error only when the key held the instance's
    own token and the run removed exactly that record. *)
Theorem Unlock_success_removed_own_record
    (d : DistributedMutex) (s s' : State) :
  Unlock d s = Ret (None, s') →
  ∃ e, store s !! Key d = Some e ∧ val e = Value d ∧
       store s' = delete (Key d) (store s) ∧
       trace s' = trace s ++ [EvEval (Key d) (Value d) (I_int64 1) None].
Proof.
  unfold Unlock. destruct (Client d) as [c|] eqn:Hc; [|done].
  rewrite (bind_Ret _ _ _ _ _ (Eval_run c UnlockLuaScript (Key d) (Value d) s)).
  destruct (UnlockLuaScript_cases (Key d) (Value d) (store s))
    as [(e & He & Hv & ->) | (_ & ->)];
    destruct (upcoming_fault s); cbn; intros H; try discriminate H.
  injection H as <-. by exists e.
Qed.

Lemma Unlock_success_removed_own_record_witness :
  let s := Examples.state0 (mkOptions 5000000000 0 100000000)
                           {[ "job-1" := mkEntry "req-A" 5000000000;
                              "job-2" := mkEntry "req-C" 9 ]} in
  let s' := mkState {[ 1%positive := mkOptions 5000000000 0 100000000 ]}
                    {[ "job-2" := mkEntry "req-C" 9 ]} [] []
                    [EvEval "job-1" "req-A" (I_int64 1) None] in
  ∃ e, store s !! "job-1" = Some e ∧ val e = "req-A" ∧
       store s' = delete "job-1" (store s) ∧
       trace s' = trace s ++ [EvEval "job-1" "req-A" (I_int64 1) None].
Proof.
  refine (Unlock_success_removed_own_record (Examples.mutex "job-1" "req-A")
            (Examples.state0 (mkOptions 5000000000 0 100000000)
                             {[ "job-1" := mkEntry "req-A" 5000000000;
                                "job-2" := mkEntry "req-C" 9 ]})
            (mkState {[ 1%positive := mkOptions 5000000000 0 100000000 ]}
                     {[ "job-2" := mkEntry "req-C" 9 ]} [] []
                     [EvEval "job-1" "req-A" (I_int64 1) None]) _).
  reflexivity.
Defined.

(** X10: an acquire/release cycle is a round trip.  On a free key, with
    the two commands delivered, [Lock] followed by [Unlock] on the same
    instance both succeed and leave the store exactly as it was; in
    between the key holds the instance's token. *)
Theorem acquire_release_restores_store
    (d : DistributedMutex) (c : redis_Client) (l : loc) (o : Options) (s : State) :
  Opt d = Some l → heap s !! l = Some o → Client d = Some c →
  transport_reliable s = true → store s !! Key d = None →
  ∃ s1 s2, Lock d s = Ret (None, s1) ∧ Unlock d s1 = Ret (None, s2) ∧
    store s1 !! Key d = Some (mkEntry (Value d) (Expiration o)) ∧
    store s2 = store s ∧
    trace s2 = trace s ++ [EvSetNX (Key d) (Value d) (Expiration o) true None;
                           EvEval (Key d) (Value d) (I_int64 1) None].
Proof.
  intros Hp Hl Hc Hf Hk.
  destruct (upcoming_fault_tail s Hf) as [Hf0 Hf1].
  eexists _, _. split; [by apply (Lock_free_state d c l o s)|].
  split.
  - apply (Unlock_match_state d c _ (mkEntry (Value d) (Expiration o))); cbn; try done.
    + unfold upcoming_fault. cbn. by destruct (tail (faults s)) as [|[| |] fs].
    + apply lookup_insert_eq.
  - cbn. split; [apply lookup_insert_eq|]. split.
    + by apply delete_insert_id.
    + by rewrite <- app_assoc.
Qed.

Lemma acquire_release_restores_store_witness :
  let s := Examples.state0 (mkOptions 5000000000 0 100000000)
                           {[ "job-2" := mkEntry "req-C" 9 ]} in
  ∃ s1 s2, Lock (Examples.mutex "job-1" "req-A") s = Ret (None, s1) ∧
    Unlock (Examples.mutex "job-1" "req-A") s1 = Ret (None, s2) ∧
    store s1 !! "job-1" = Some (mkEntry "req-A" 5000000000) ∧
    store s2 = store s ∧
    trace s2 = trace s ++ [EvSetNX "job-1" "req-A" 5000000000 true None;
                           EvEval "job-1" "req-A" (I_int64 1) None].
Proof.
  refine (acquire_release_restores_store (Examples.mutex "job-1" "req-A")
            (mkClient "127.0.0.1:6379") 1%positive
            (mkOptions 5000000000 0 100000000)
            (Examples.state0 (mkOptions 5000000000 0 100000000)
                             {[ "job-2" := mkEntry "req-C" 9 ]}) _ _ _ _ _);
    reflexivity.
Defined.

(** X11: hand-over.  When the holder releases with its own token, another
    instance on the same key then acquires on its first attempt, and the
    key holds the new instance's token. *)
Theorem release_then_acquire_by_other
    (a b : DistributedMutex) (ca cb : redis_Client) (l : loc) (o : Options)
    (s : State) (e : Entry) :
  Client a = Some ca → Client b = Some cb → Key b = Key a →
  Opt b = Some l → heap s !! l = Some o →
  transport_reliable s = true →
  store s !! Key a = Some e → val e = Value a →
  ∃ s1 s2, Unlock a s = Ret (None, s1) ∧ Lock b s1 = Ret (None, s2) ∧
    store s2 !! Key a = Some (mkEntry (Value b) (Expiration o)) ∧
    trace s2 = trace s ++ [EvEval (Key a) (Value a) (I_int64 1) None;
                           EvSetNX (Key a) (Value b) (Expiration o) true None].
Proof.
  intros Hca Hcb Hkey Hp Hl Hf Hk Hv.
  destruct (upcoming_fault_tail s Hf) as [Hf0 Hf1].
  eexists _, _. split; [by apply (Unlock_match_state a ca s e)|].
  split.
  - apply (Lock_free_state b cb l o); cbn; try done.
    + unfold upcoming_fault. cbn. by destruct (tail (faults s)) as [|[| |] fs].
    + rewrite Hkey. apply lookup_delete_eq.
  - cbn. rewrite Hkey. split; [apply lookup_insert_eq|]. by rewrite <- app_assoc.
Qed.

Lemma release_then_acquire_by_other_witness :
  let s := Examples.state0 (mkOptions 5000000000 0 100000000)
                           {[ "job-1" := mkEntry "req-A" 5000000000 ]} in
  ∃ s1 s2, Unlock (Examples.mutex "job-1" "req-A") s = Ret (None, s1) ∧
    Lock (Examples.mutex "job-1" "req-B") s1 = Ret (None, s2) ∧
    store s2 !! "job-1" = Some (mkEntry "req-B" 5000000000) ∧
    trace s2 = trace s ++ [EvEval "job-1" "req-A" (I_int64 1) None;
                           EvSetNX "job-1" "req-B" 5000000000 true None].
Proof.
  refine (release_then_acquire_by_other
            (Examples.mutex "job-1" "req-A") (Examples.mutex "job-1" "req-B")
            (mkClient "127.0.0.1:6379") (mkClient "127.0.0.1:6379") 1%positive
            (mkOptions 5000000000 0 100000000)
            (Examples.state0 (mkOptions 5000000000 0 100000000)
                             {[ "job-1" := mkEntry "req-A" 5000000000 ]})
            (mkEntry "req-A" 5000000000) _ _ _ _ _ _ _ _); reflexivity.
Defined.

(** X12: the lock is not re-entrant.  After an instance has acquired a
    free key, a second [Lock] on the same instance (same token) spends its
    retries and fails with [ErrLockNotAcquired]; the record and its TTL
    stay as the first call wrote them. *)
Theorem Lock_not_reentrant
    (d : DistributedMutex) (c : redis_Client) (l : loc) (o : Options) (s : State) :
  Opt d = Some l → heap s !! l = Some o → Client d = Some c →
  transport_reliable s = true → key_undisturbed (Key d) s = true →
  store s !! Key d = None →
  ∃ s1 s2, Lock d s = Ret (None, s1) ∧
    Lock d s1 = Ret (Some ErrLockNotAcquired, s2) ∧
    store s2 !! Key d = Some (mkEntry (Value d) (Expiration o)).
Proof.
  intros Hp Hl Hc Hf Ho Hk.
  destruct (upcoming_fault_tail s Hf) as [Hf0 Hf1].
  pose proof (Lock_free_state d c l o s Hp Hl Hc Hf0 Hk) as H1.
  set (s1 := mkState _ _ _ _ _) in H1.
  assert (Hl1 : heap s1 !! l = Some o) by done.
  destruct (lock_loop_contended d c l o Hp Hc (mkEntry (Value d) (Expiration o))
              (Z.to_nat (RetryCount o)) (RetryCount o) s1)
    as (s2 & Hrun & _ & Hst); [done|lia|apply lookup_insert_eq|done|done|].
  exists s1, s2. split; [done|]. split; [|done].
  by rewrite (Lock_unfold d l o s1 Hp Hl1).
Qed.

Lemma Lock_not_reentrant_witness :
  let s := Examples.state0 (mkOptions 5000000000 1 100000000) ∅ in
  ∃ s1 s2, Lock (Examples.mutex "job-1" "req-A") s = Ret (None, s1) ∧
    Lock (Examples.mutex "job-1" "req-A") s1 = Ret (Some ErrLockNotAcquired, s2) ∧
    store s2 !! "job-1" = Some (mkEntry "req-A" 5000000000).
Proof.
  refine (Lock_not_reentrant (Examples.mutex "job-1" "req-A")
            (mkClient "127.0.0.1:6379") 1%positive
            (mkOptions 5000000000 1 100000000)
            (Examples.state0 (mkOptions 5000000000 1 100000000) ∅) _ _ _ _ _ _);
    reflexivity.
Defined.

(** X13: a store error does not tell the caller whether the command took
    effect.  When the reply of a create-if-absent that succeeded on the
    server is lost, [Lock] returns the store error after that one attempt
    although the record now exists under the instance's token; the code
    issues no further command to undo it. *)
Theorem Lock_error_may_leave_record
    (d : DistributedMutex) (c : redis_Client) (l : loc) (o : Options) (s : State)
    (msg : string) :
  Opt d = Some l → heap s !! l = Some o → Client d = Some c →
  upcoming_fault s = ReplyLost msg → store s !! Key d = None →
  ∃ s', Lock d s = Ret (Some (StoreError msg), s') ∧
    store s' !! Key d = Some (mkEntry (Value d) (Expiration o)) ∧
    trace s' = trace s ++ [EvSetNX (Key d) (Value d) (Expiration o) false
                                   (Some (StoreError msg))].
Proof.
  intros Hp Hl Hc Hf Hk. rewrite (Lock_unfold d l o s Hp Hl), lock_loop_unfold.
  erewrite bind_Ret; [|rewrite (tryLock_run d l o s Hp Hl), Hc; apply SetNX_run].
  rewrite Hf. unfold redis_set_nx. rewrite Hk. cbn.
  eexists. split; [reflexivity|]. cbn. split; [apply lookup_insert_eq|done].
Qed.

Lemma Lock_error_may_leave_record_witness :
  let s := mkState {[ 1%positive := mkOptions 5000000000 3 100000000 ]} ∅
                   [ReplyLost "read timeout"] [] [] in
  ∃ s', Lock (Examples.mutex "job-1" "req-A") s
        = Ret (Some (StoreError "read timeout"), s') ∧
    store s' !! "job-1" = Some (mkEntry "req-A" 5000000000) ∧
    trace s' = trace s ++ [EvSetNX "job-1" "req-A" 5000000000 false
                                   (Some (StoreError "read timeout"))].
Proof.
  refine (Lock_error_may_leave_record (Examples.mutex "job-1" "req-A")
            (mkClient "127.0.0.1:6379") 1%positive
            (mkOptions 5000000000 3 100000000)
            (mkState {[ 1%positive := mkOptions 5000000000 3 100000000 ]} ∅
                     [ReplyLost "read timeout"] [] [])
            "read timeout" _ _ _ _ _); reflexivity.
Defined.

(** X14: likewise for release: when the reply of a compare-and-delete that
    matched is lost, [Unlock] returns the store error although the record
    has been removed. *)
Theorem Unlock_error_may_have_released
    (d : DistributedMutex) (c : redis_Client) (s : State) (e : Entry) (msg : string) :
  Client d = Some c → upcoming_fault s = ReplyLost msg →
  store s !! Key d = Some e → val e = Value d →
  ∃ s', Unlock d s = Ret (Some (StoreError msg), s') ∧
    store s' = delete (Key d) (store s) ∧
    store s' !! Key d = None.
Proof.
  intros Hc Hf Hk Hv. unfold Unlock. rewrite Hc.
  rewrite (bind_Ret _ _ _ _ _ (Eval_run c UnlockLuaScript (Key d) (Value d) s)).
  rewrite Hf, (UnlockLuaScript_match _ _ _ e Hk Hv). cbn.
  eexists. split; [reflexivity|]. cbn. split; [done|apply lookup_delete_eq].
Qed.

Lemma Unlock_error_may_have_released_witness :
  let s := mkState {[ 1%positive := mkOptions 5000000000 0 100000000 ]}
                   {[ "job-1" := mkEntry "req-A" 5000000000 ]}
                   [ReplyLost "read timeout"] [] [] in
  ∃ s', Unlock (Examples.mutex "job-1" "req-A") s
        = Ret (Some (StoreError "read timeout"), s') ∧
    store s' = delete "job-1" (store s) ∧
    store s' !! "job-1" = None.
Proof.
  refine (Unlock_error_may_have_released (Examples.mutex "job-1" "req-A")
            (mkClient "127.0.0.1:6379")
            (mkState {[ 1%positive := mkOptions 5000000000 0 100000000 ]}
                     {[ "job-1" := mkEntry "req-A" 5000000000 ]}
                     [ReplyLost "read timeout"] [] [])
            (mkEntry "req-A" 5000000000) "read timeout" _ _ _ _); reflexivity.
Defined.

Section loop_freed.
Context (d : DistributedMutex) (c : redis_Client) (l : loc) (o : Options).
Context (Hp : Opt d = Some l) (Hc : Client d = Some c).

Ltac next_attempt Hl :=
  rewrite lock_loop_unfold;
  (erewrite bind_Ret; [|rewrite (tryLock_run d l o _ Hp Hl), Hc; apply SetNX_run]).

(** The loop on a key that is held for the first [length pre] sleeps and
    freed during the next one. *)
Lemma lock_loop_freed (pre : list (list env_action)) :
  ∀ (acts : list env_action) (rest : list (list env_action))
    (fuel : nat) (rc : Z) (s : State) (e : Entry),
    heap s !! l = Some o → (Z.to_nat rc ≤ fuel)%nat →
    Z.of_nat (length pre) < rc →
    store s !! Key d = Some e → transport_reliable s = true →
    others s = pre ++ acts :: rest →
    forallb (forallb (λ a, bool_decide (action_key a ≠ Key d))) pre = true →
    (∀ m, foldl apply_action m acts !! Key d = None) →
    ∃ s', lock_loop d fuel rc s = Ret (None, s') ∧
      trace s' = trace s
                 ++ contended_run (Key d) (Value d) (Expiration o) (RetryDelay o)
                                  (length pre)
                 ++ [EvSleep (RetryDelay o);
                     EvSetNX (Key d) (Value d) (Expiration o) true None] ∧
      store s' !! Key d = Some (mkEntry (Value d) (Expiration o)).
Proof.
  induction pre as [|p pre IH];
    intros acts rest fuel rc s e Hl Hfuel Hrc Hk Hf Hoth Hpre Hfree;
    destruct (upcoming_fault_tail s Hf) as [Hf0 Hf1];
    (destruct fuel as [|fuel]; [cbn in Hrc; lia|]);
    next_attempt Hl;
    rewrite Hf0, (redis_set_nx_held _ _ _ _ e Hk); cbn [fst snd];
    (destruct (rc <=? 0) eqn:Hle; [apply Z.leb_le in Hle; cbn in Hrc; lia|]);
    set (s1 := mkState _ _ _ _ _);
    assert (Hl1 : heap s1 !! l = Some o) by done;
    rewrite (bind_Ret _ _ _ _ _ (load_Opt d l o s1 RetryDelay Hp Hl1));
    rewrite (bind_Ret _ _ _ _ _ (Sleep_run _ s1));
    set (s2 := mkState _ _ _ _ _);
    assert (Hl2 : heap s2 !! l = Some o) by done.
  - next_attempt Hl2.
    assert (Hf2 : upcoming_fault s2 = NoFault).
    { unfold upcoming_fault. subst s2 s1. cbn.
      by destruct (tail (faults s)) as [|[| |] fs]. }
    assert (Hk2 : store s2 !! Key d = None).
    { subst s2 s1. cbn. rewrite Hoth. cbn. apply Hfree. }
    rewrite Hf2. unfold redis_set_nx. rewrite Hk2. cbn.
    eexists. split; [reflexivity|]. cbn. split.
    + by rewrite <- !app_assoc.
    + apply lookup_insert_eq.
  - cbn in Hpre. apply andb_prop in Hpre as [Hp0 Hpre].
    assert (Hk2 : store s2 !! Key d = Some e).
    { subst s2 s1. cbn. rewrite Hoth. cbn. by rewrite foldl_apply_action_other. }
    assert (Hf2 : transport_reliable s2 = true) by exact Hf1.
    assert (Ho2 : others s2 = pre ++ acts :: rest).
    { subst s2 s1. cbn. by rewrite Hoth. }
    assert (Hrc2 : Z.of_nat (length pre) < rc - 1) by (cbn in Hrc; lia).
    assert (Hfuel2 : (Z.to_nat (rc - 1) ≤ fuel)%nat) by lia.
    destruct (IH acts rest fuel (rc - 1) s2 e Hl2 Hfuel2 Hrc2 Hk2 Hf2 Ho2 Hpre Hfree)
      as (s' & Hrun & Htr & Hst).
    exists s'. split; [done|]. split; [|done].
    rewrite Htr. subst s2 s1. cbn. by rewrite <- !app_assoc.
Qed.

End loop_freed.

(** X15: retrying pays off once the key is freed.  If the key is held,
    stays held during the first [k] sleeps and is released (or expires)
    during the next one, and the policy allows more than [k] retries, then
    [Lock] succeeds on attempt [k + 2]: [k + 1] failed attempts, each
    followed by a sleep of [RetryDelay], then the attempt that creates
    the record. *)
Theorem Lock_acquires_once_key_freed
    (d : DistributedMutex) (c : redis_Client) (l : loc) (o : Options) (s : State)
    (e : Entry) (pre rest : list (list env_action)) (acts : list env_action) :
  Opt d = Some l → heap s !! l = Some o → Client d = Some c →
  transport_reliable s = true → store s !! Key d = Some e →
  others s = pre ++ acts :: rest →
  forallb (forallb (λ a, bool_decide (action_key a ≠ Key d))) pre = true →
  (∀ m, foldl apply_action m acts !! Key d = None) →
  Z.of_nat (length pre) < RetryCount o →
  ∃ s', Lock d s = Ret (None, s') ∧
    trace s' = trace s
               ++ contended_run (Key d) (Value d) (Expiration o) (RetryDelay o)
                                (length pre)
               ++ [EvSleep (RetryDelay o);
                   EvSetNX (Key d) (Value d) (Expiration o) true None] ∧
    store s' !! Key d = Some (mkEntry (Value d) (Expiration o)).
Proof.
  intros Hp Hl Hc Hf Hk Hoth Hpre Hfree Hrc.
  rewrite (Lock_unfold d l o s Hp Hl).
  by apply (lock_loop_freed d c l o Hp Hc pre acts rest _ _ s e).
Qed.

Lemma Lock_acquires_once_key_freed_witness :
  let s := mkState {[ 1%positive := mkOptions 5000000000 3 100000000 ]}
                   {[ "job-1" := mkEntry "req-A" 5000000000 ]} []
                   [[EnvSet "job-2" "x" 7]; [EnvDel "job-1"]] [] in
  ∃ s', Lock (Examples.mutex "job-1" "req-B") s = Ret (None, s') ∧
    trace s' = [EvSetNX "job-1" "req-B" 5000000000 false None; EvSleep 100000000;
                EvSetNX "job-1" "req-B" 5000000000 false None; EvSleep 100000000;
                EvSetNX "job-1" "req-B" 5000000000 true None] ∧
    store s' !! "job-1" = Some (mkEntry "req-B" 5000000000).
Proof.
  refine (Lock_acquires_once_key_freed (Examples.mutex "job-1" "req-B")
            (mkClient "127.0.0.1:6379") 1%positive
            (mkOptions 5000000000 3 100000000)
            (mkState {[ 1%positive := mkOptions 5000000000 3 100000000 ]}
                     {[ "job-1" := mkEntry "req-A" 5000000000 ]} []
                     [[EnvSet "job-2" "x" 7]; [EnvDel "job-1"]] [])
            (mkEntry "req-A" 5000000000)
            [[EnvSet "job-2" "x" 7]] [] [EnvDel "job-1"] _ _ _ _ _ _ _ _ _);
    try reflexivity.
  intros m. cbn. apply lookup_delete_eq.
Defined.

(** ** The example program *)

Lemma NewDistributedMutex_run (key value : string) (client : option redis_Client)
    (l : loc) (o : Options) (s : State) :
  heap s !! l = Some o →
  NewDistributedMutex key value client (Some l) s
  = Ret (mkDistributedMutex key value client (Some l),
         set_heap (<[l := resolve o]> (heap s)) s).
Proof.
  intros Hl. unfold NewDistributedMutex.
  by rewrite (bind_Ret _ _ _ _ _ (init_run _ _ _ Hl)).
Qed.

(** [main] up to its call of [Lock]: a fresh cell holds the defaults that
    [init] wrote over the empty options. *)
Lemma main_until_Lock (s : State) :
  let l := fresh (dom (heap s)) in
  let s1 := set_heap (<[l := mkOptions 5000000000 0 100000000]> (heap s)) s in
  let distMutex :=
    mkDistributedMutex "key" "request-id" (Some (mkClient "127.0.0.1:6379")) (Some l) in
  main s
  = (err ← Lock distMutex;
     match err with
     | Some e => mret (Fatal ("get a lock fail, " +:+ Error e))
     | None => logic;; Unlock distMutex;; mret Returned
     end) s1.
Proof.
  intros l s1 distMutex. unfold main.
  rewrite (bind_Ret getRedisClient _ s s _ eq_refl). cbn [fst snd].
  rewrite (bind_Ret (new_Options _) _ s
             (set_heap (<[l := mkOptions 0 0 0]> (heap s)) s) (Some l) eq_refl).
  erewrite bind_Ret; [|apply NewDistributedMutex_run; apply lookup_insert_eq].
  subst s1. destruct s. cbn [set_heap heap store faults others trace].
  by rewrite insert_insert_eq.
Qed.

(** X16: the example program on a free key.  With the two commands
    delivered, [main] acquires "key" for "request-id" with the default TTL
    of 5 seconds (its options are empty), runs [logic], releases through
    the deferred [Unlock] and returns; the store is left as it was found
    and the heap gained only the options cell, holding the defaults. *)
Theorem main_acquires_and_releases (s : State) :
  store s !! "key" = None → transport_reliable s = true →
  ∃ s', main s = Ret (Returned, s') ∧
    store s' = store s ∧
    trace s' = trace s ++ [EvSetNX "key" "request-id" 5000000000 true None;
                           EvEval "key" "request-id" (I_int64 1) None] ∧
    heap s' = <[fresh (dom (heap s)) := mkOptions 5000000000 0 100000000]> (heap s).
Proof.
  intros Hk Hf. destruct (upcoming_fault_tail s Hf) as [Hf0 Hf1].
  rewrite main_until_Lock.
  set (l := fresh (dom (heap s))).
  set (s1 := set_heap _ s).
  set (d := mkDistributedMutex _ _ _ _).
  erewrite bind_Ret;
    [|apply (Lock_free_state d (mkClient "127.0.0.1:6379") l
               (mkOptions 5000000000 0 100000000) s1);
      [done|apply lookup_insert_eq|done|done|done]].
  unfold logic. rewrite (bind_Ret (mret tt) _ _ _ _ eq_refl).
  erewrite bind_Ret;
    [|apply (Unlock_match_state d (mkClient "127.0.0.1:6379") _
               (mkEntry "request-id" 5000000000));
      [done| |apply lookup_insert_eq|done]].
  - eexists. split; [reflexivity|]. cbn. split; [|split; [|done]].
    + by apply delete_insert_id.
    + by rewrite <- app_assoc.
  - unfold upcoming_fault. cbn. by destruct (tail (faults s)) as [|[| |] fs].
Qed.

Lemma main_acquires_and_releases_witness :
  let s := mkState ∅ {[ "job-1" := mkEntry "req-A" 5000000000 ]} [] [] [] in
  ∃ s', main s = Ret (Returned, s') ∧
    store s' = store s ∧
    trace s' = trace s ++ [EvSetNX "key" "request-id" 5000000000 true None;
                           EvEval "key" "request-id" (I_int64 1) None] ∧
    heap s' = <[fresh (dom (heap s)) := mkOptions 5000000000 0 100000000]> (heap s).
Proof.
  refine (main_acquires_and_releases
            (mkState ∅ {[ "job-1" := mkEntry "req-A" 5000000000 ]} [] [] []) _ _);
    reflexivity.
Defined.

(** X17: the example program on a held key.  Its options carry no
    retries, so [main] makes a single attempt, does not sleep, and
    [log.Fatalf] ends the process with the text of [ErrLockNotAcquired];
    [logic] and [Unlock] never run and the holder's record is untouched. *)
Theorem main_gives_up_on_held_key (s : State) (e : Entry) :
  store s !! "key" = Some e → upcoming_fault s = NoFault →
  ∃ s', main s = Ret (Fatal "get a lock fail, lock not acquired", s') ∧
    store s' = store s ∧
    trace s' = trace s ++ [EvSetNX "key" "request-id" 5000000000 false None].
Proof.
  intros Hk Hf. rewrite main_until_Lock.
  set (l := fresh (dom (heap s))).
  set (s1 := set_heap _ s).
  set (d := mkDistributedMutex _ _ _ _).
  erewrite bind_Ret;
    [|apply (Lock_held_state d (mkClient "127.0.0.1:6379") l
               (mkOptions 5000000000 0 100000000) s1 e);
      [done|apply lookup_insert_eq|done|done|done|done]].
  eexists. split; [reflexivity|]. done.
Qed.

Lemma main_gives_up_on_held_key_witness :
  let s := mkState ∅ {[ "key" := mkEntry "other-request" 5000000000 ]} [] [] [] in
  ∃ s', main s = Ret (Fatal "get a lock fail, lock not acquired", s') ∧
    store s' = store s ∧
    trace s' = trace s ++ [EvSetNX "key" "request-id" 5000000000 false None].
Proof.
  refine (main_gives_up_on_held_key
            (mkState ∅ {[ "key" := mkEntry "other-request" 5000000000 ]} [] [] [])
            (mkEntry "other-request" 5000000000) _ _); reflexivity.
Defined.

(** X18: a release cannot be repeated.  After an [Unlock] that removed
    the instance's record, a second [Unlock] on the same instance finds no
    record, returns [ErrUnlockFailed] and changes nothing. *)
Theorem Unlock_twice_fails
    (d : DistributedMutex) (c : redis_Client) (s : State) (e : Entry) :
  Client d = Some c → transport_reliable s = true →
  store s !! Key d = Some e → val e = Value d →
  ∃ s1 s2, Unlock d s = Ret (None, s1) ∧
    Unlock d s1 = Ret (Some ErrUnlockFailed, s2) ∧
    store s2 = store s1 ∧ store s2 !! Key d = None.
Proof.
  intros Hc Hf Hk Hv. destruct (upcoming_fault_tail s Hf) as [Hf0 Hf1].
  eexists _, _. split; [by apply (Unlock_match_state d c s e)|].
  split.
  - apply (Unlock_other_state d c); cbn; try done.
    + unfold upcoming_fault. cbn. by destruct (tail (faults s)) as [|[| |] fs].
    + intros e'. by rewrite lookup_delete_eq.
  - cbn. split; [done|apply lookup_delete_eq].
Qed.

Lemma Unlock_twice_fails_witness :
  let s := Examples.state0 (mkOptions 5000000000 0 100000000)
                           {[ "job-1" := mkEntry "req-A" 5000000000 ]} in
  ∃ s1 s2, Unlock (Examples.mutex "job-1" "req-A") s = Ret (None, s1) ∧
    Unlock (Examples.mutex "job-1" "req-A") s1 = Ret (Some ErrUnlockFailed, s2) ∧
    store s2 = store s1 ∧ store s2 !! "job-1" = None.
Proof.
  refine (Unlock_twice_fails (Examples.mutex "job-1" "req-A")
            (mkClient "127.0.0.1:6379")
            (Examples.state0 (mkOptions 5000000000 0 100000000)
                             {[ "job-1" := mkEntry "req-A" 5000000000 ]})
            (mkEntry "req-A" 5000000000) _ _ _ _); reflexivity.
Defined.

(** X19: the constructor does not copy the policy.  It overwrites the
    caller's [Options] in place with the resolved values and keeps the
    caller's pointer, so two instances built from one options pointer
    share one policy cell; the second construction changes nothing. *)
Theorem NewDistributedMutex_shares_options
    (k1 v1 k2 v2 : string) (c1 c2 : option redis_Client)
    (l : loc) (o : Options) (s : State) :
  heap s !! l = Some o →
  ∃ d1 d2 s1,
    NewDistributedMutex k1 v1 c1 (Some l) s = Ret (d1, s1) ∧
    NewDistributedMutex k2 v2 c2 (Some l) s1 = Ret (d2, s1) ∧
    Opt d1 = Some l ∧ Opt d2 = Some l ∧
    heap s1 !! l = Some (resolve o) ∧
    1 ≤ Expiration (resolve o) ∧ 0 ≤ RetryCount (resolve o) ∧
    1 ≤ RetryDelay (resolve o).
Proof.
  intros Hl.
  exists (mkDistributedMutex k1 v1 c1 (Some l)),
         (mkDistributedMutex k2 v2 c2 (Some l)),
         (set_heap (<[l := resolve o]> (heap s)) s).
  assert (H1 : heap (set_heap (<[l := resolve o]> (heap s)) s) !! l = Some (resolve o))
    by apply lookup_insert_eq.
  split; [by apply NewDistributedMutex_run|]. split.
  - rewrite (NewDistributedMutex_run k2 v2 c2 l (resolve o) _ H1), resolve_idemp.
    destruct s. cbn [set_heap heap store faults others trace].
    by rewrite insert_insert_eq.
  - split; [done|]. split; [done|]. split; [done|].
    rewrite resolve_Expiration, resolve_RetryCount, resolve_RetryDelay.
    split; [|split].
    + destruct (Expiration o <? 1) eqn:H; [done|]. by apply Z.ltb_ge in H.
    + destruct (RetryCount o <? 0) eqn:H; [done|]. by apply Z.ltb_ge in H.
    + destruct (RetryDelay o <? 1) eqn:H; [done|]. by apply Z.ltb_ge in H.
Qed.

Lemma NewDistributedMutex_shares_options_witness :
  let s := Examples.state0 (mkOptions 0 (-1) 250) ∅ in
  ∃ d1 d2 s1,
    NewDistributedMutex "job-1" "req-A" Examples.client (Some 1%positive) s
      = Ret (d1, s1) ∧
    NewDistributedMutex "job-2" "req-B" Examples.client (Some 1%positive) s1
      = Ret (d2, s1) ∧
    Opt d1 = Some 1%positive ∧ Opt d2 = Some 1%positive ∧
    heap s1 !! 1%positive = Some (resolve (mkOptions 0 (-1) 250)) ∧
    1 ≤ Expiration (resolve (mkOptions 0 (-1) 250)) ∧
    0 ≤ RetryCount (resolve (mkOptions 0 (-1) 250)) ∧
    1 ≤ RetryDelay (resolve (mkOptions 0 (-1) 250)).
Proof.
  refine (NewDistributedMutex_shares_options "job-1" "req-A" "job-2" "req-B"
            Examples.client Examples.client 1%positive (mkOptions 0 (-1) 250)
            (Examples.state0 (mkOptions 0 (-1) 250) ∅) _).
  reflexivity.
Defined.

(** ** Failures of the client, command by command *)

Lemma upcoming_fault_lookup (s : State) (f : fault) :
  faults s !! O = Some f → upcoming_fault s = f.
Proof. unfold upcoming_fault. destruct (faults s); cbn; congruence. Qed.

Lemma fault_lookup_S (s : State) (j : nat) :
  faults s !! S j = tail (faults s) !! j.
Proof. by destruct (faults s). Qed.

(** What [Unlock] does with the transport's verdict on its one command. *)
Lemma Unlock_one_command (d : DistributedMutex) (c : redis_Client) (s : State) :
  Client d = Some c →
  ∃ r s' res err, Unlock d s = Ret (r, s') ∧
    trace s' = trace s ++ [EvEval (Key d) (Value d) res err] ∧
    faults s' = tail (faults s) ∧
    (∀ msg, upcoming_fault s = SendFails msg ∨ upcoming_fault s = ReplyLost msg →
            r = Some (StoreError msg) ∧ err = Some (StoreError msg)) ∧
    (∀ msg, err = Some (StoreError msg) → r = Some (StoreError msg)).
Proof.
  intros Hc. unfold Unlock. rewrite Hc.
  rewrite (bind_Ret _ _ _ _ _ (Eval_run c UnlockLuaScript (Key d) (Value d) s)).
  destruct (UnlockLuaScript_cases (Key d) (Value d) (store s))
    as [(e & _ & _ & ->) | (_ & ->)];
    destruct (upcoming_fault s) as [|m|m]; cbn;
    eexists _, _, _, _; (split; [reflexivity|]); cbn;
    (split; [reflexivity|]); (split; [reflexivity|]);
    (split; [intros msg [H|H]; by inversion H | by intros msg [= <-]]).
Qed.

Section loop_faults.
Context (d : DistributedMutex) (c : redis_Client) (l : loc) (o : Options).
Context (Hp : Opt d = Some l) (Hc : Client d = Some c).

Ltac issue_attempt Hl :=
  rewrite lock_loop_unfold;
  (erewrite bind_Ret; [|rewrite (tryLock_run d l o _ Hp Hl), Hc; apply SetNX_run]).

(** Every run of the loop issues at least one command, and if the
    transport fails the command number [j] that the run issues, that
    attempt is the last event of the run and its error is the result. *)
Lemma lock_loop_faults (fuel : nat) (rc : Z) (s : State) :
  heap s !! l = Some o → (Z.to_nat rc ≤ fuel)%nat →
  ∃ r s' evs, lock_loop d fuel rc s = Ret (r, s') ∧
    trace s' = trace s ++ evs ∧
    (1 ≤ attempts evs)%nat ∧
    (∀ j msg, (j < attempts evs)%nat →
       faults s !! j = Some (SendFails msg) ∨ faults s !! j = Some (ReplyLost msg) →
       r = Some (StoreError msg) ∧ attempts evs = S j ∧
       ∃ pre, evs = pre ++ [EvSetNX (Key d) (Value d) (Expiration o) false
                                    (Some (StoreError msg))]).
Proof.
  revert rc s. induction fuel as [|fuel IH]; intros rc s Hl Hfuel; issue_attempt Hl.
  all: destruct (upcoming_fault s) as [|m|m] eqn:Hu;
    [destruct (redis_set_nx _ _ _ (store s)).1; [|destruct (rc <=? 0) eqn:Hrc]| |].
  all: try (eexists _, _, [_]; split; [reflexivity|];
            split; [reflexivity|]; split; [cbn; lia|];
            intros j msg Hj Hfj; cbn in Hj;
            assert (j = O) as -> by lia;
            destruct Hfj as [Hfj|Hfj]; apply upcoming_fault_lookup in Hfj;
            rewrite Hu in Hfj;
            first [discriminate Hfj
                  |injection Hfj as ->;
                   (split; [done|]); (split; [done|]); by exists []]).
  - apply Z.leb_gt in Hrc. lia.
  - apply Z.leb_gt in Hrc. cbn.
    set (s1 := mkState _ _ _ _ _).
    assert (Hl1 : heap s1 !! l = Some o) by done.
    rewrite (bind_Ret _ _ _ _ _ (load_Opt d l o s1 RetryDelay Hp Hl1)).
    rewrite (bind_Ret _ _ _ _ _ (Sleep_run _ s1)).
    set (s2 := mkState _ _ _ _ _).
    destruct (IH (rc - 1) s2) as (r & s' & evs & Hrun & Htr & Hn & Hflt); [done|lia|].
    exists r, s', (EvSetNX (Key d) (Value d) (Expiration o) false None
                    :: EvSleep (RetryDelay o) :: evs).
    split; [done|]. split.
    { rewrite Htr. subst s2 s1. cbn. by rewrite <- !app_assoc. }
    split; [cbn; lia|].
    intros [|j] msg Hj Hfj.
    + destruct Hfj as [Hfj|Hfj]; apply upcoming_fault_lookup in Hfj;
        rewrite Hu in Hfj; discriminate Hfj.
    + rewrite fault_lookup_S in Hfj. cbn in Hj.
      destruct (Hflt j msg) as (-> & Hnj & pre & ->); [lia|exact Hfj|].
      split; [done|]. split; [cbn; lia|].
      by exists (EvSetNX (Key d) (Value d) (Expiration o) false None
                 :: EvSleep (RetryDelay o) :: pre).
Qed.

(** The loop on a held key when the transport delivers [k] commands and
    fails the next: [k] failed rounds, then the attempt that fails in the
    client, whose error is the result; no command follows it. *)
Lemma lock_loop_fault_at (k : nat) :
  ∀ (fuel : nat) (rc : Z) (s : State) (e : Entry) (f : fault)
    (rest : list fault) (msg : string),
    heap s !! l = Some o → (Z.to_nat rc ≤ fuel)%nat → Z.of_nat k ≤ rc →
    store s !! Key d = Some e → key_undisturbed (Key d) s = true →
    faults s = replicate k NoFault ++ f :: rest →
    f = SendFails msg ∨ f = ReplyLost msg →
    ∃ s', lock_loop d fuel rc s = Ret (Some (StoreError msg), s') ∧
      trace s' = trace s
                 ++ failed_rounds (Key d) (Value d) (Expiration o) (RetryDelay o) k
                 ++ [EvSetNX (Key d) (Value d) (Expiration o) false
                             (Some (StoreError msg))] ∧
      faults s' = rest.
Proof.
  induction k as [|k IH]; intros fuel rc s e f rest msg Hl Hfuel Hk Hst Ho Hfs Hf;
    issue_attempt Hl; rewrite (redis_set_nx_held _ _ _ _ e Hst);
    unfold upcoming_fault; rewrite Hfs; cbn [replicate app hd fst snd].
  - destruct Hf as [-> | ->]; cbn; eexists; (split; [reflexivity|]); by cbn.
  - destruct (rc <=? 0) eqn:Hle; [apply Z.leb_le in Hle; lia|].
    destruct fuel as [|fuel]; [lia|].
    set (s1 := mkState _ _ _ _ _).
    assert (Hl1 : heap s1 !! l = Some o) by done.
    rewrite (bind_Ret _ _ _ _ _ (load_Opt d l o s1 RetryDelay Hp Hl1)).
    rewrite (bind_Ret _ _ _ _ _ (Sleep_run _ s1)).
    set (s2 := mkState _ _ _ _ _).
    assert (Hl2 : heap s2 !! l = Some o) by done.
    assert (Hst2 : store s2 !! Key d = Some e).
    { subst s2 s1. cbn. unfold key_undisturbed in Ho.
      destruct (others s) as [|acts others']; [done|]. cbn in Ho.
      apply andb_prop in Ho as [Ha _]. by rewrite foldl_apply_action_other. }
    assert (Ho2 : key_undisturbed (Key d) s2 = true).
    { unfold key_undisturbed in *. subst s2 s1. cbn.
      destruct (others s) as [|acts others']; [done|]. cbn in Ho.
      by apply andb_prop in Ho as [_ Ho]. }
    assert (Hfs2 : faults s2 = replicate k NoFault ++ f :: rest).
    { subst s2 s1. by cbn. }
    assert (Hfuel2 : (Z.to_nat (rc - 1) ≤ fuel)%nat) by lia.
    assert (Hk2 : Z.of_nat k ≤ rc - 1) by lia.
    destruct (IH fuel (rc - 1) s2 e f rest msg Hl2 Hfuel2 Hk2 Hst2 Ho2 Hfs2 Hf)
      as (s' & Hrun & Htr & Hrest).
    exists s'. split; [done|]. split; [|done].
    rewrite Htr. subst s2 s1. cbn. by rewrite <- !app_assoc.
Qed.


End loop_faults.

(** C5: a failure of the store client itself is returned at once and
    unmodified.  Release: [Unlock] issues one command; if the transport
    fails it (before or after the server ran it), [Unlock] returns that
    error.  Acquire: [Lock] always issues a first command, and whichever
    command of the run the transport fails, that attempt is the last
    event of the run (no sleep and no retry follow) and its error is the
    result of [Lock]; in particular on a held key with [k] delivered
    attempts before the failure, the run is [k] failed rounds followed by
    the failing attempt, and the fault schedule is consumed exactly up to
    it. *)
Theorem client_failure_returned_at_once
    (d : DistributedMutex) (c : redis_Client) (s : State) :
  Client d = Some c →
  (∃ r s' res err, Unlock d s = Ret (r, s') ∧
     trace s' = trace s ++ [EvEval (Key d) (Value d) res err] ∧
     faults s' = tail (faults s) ∧
     (∀ msg, upcoming_fault s = SendFails msg ∨ upcoming_fault s = ReplyLost msg →
             r = Some (StoreError msg) ∧ err = Some (StoreError msg)) ∧
     (∀ msg, err = Some (StoreError msg) → r = Some (StoreError msg))) ∧
  (∀ l o, Opt d = Some l → heap s !! l = Some o →
     ∃ r s' evs, Lock d s = Ret (r, s') ∧
       trace s' = trace s ++ evs ∧
       (1 ≤ attempts evs)%nat ∧
       (∀ j msg, (j < attempts evs)%nat →
          faults s !! j = Some (SendFails msg) ∨ faults s !! j = Some (ReplyLost msg) →
          r = Some (StoreError msg) ∧ attempts evs = S j ∧
          ∃ pre, evs = pre ++ [EvSetNX (Key d) (Value d) (Expiration o) false
                                       (Some (StoreError msg))]) ∧
       (∀ k f rest e msg,
          faults s = replicate k NoFault ++ f :: rest →
          f = SendFails msg ∨ f = ReplyLost msg →
          Z.of_nat k ≤ RetryCount o →
          store s !! Key d = Some e → key_undisturbed (Key d) s = true →
          r = Some (StoreError msg) ∧
          evs = failed_rounds (Key d) (Value d) (Expiration o) (RetryDelay o) k
                ++ [EvSetNX (Key d) (Value d) (Expiration o) false
                            (Some (StoreError msg))] ∧
          faults s' = rest) ∧
       (∀ i ev msg, evs !! i = Some ev → client_error ev = Some (StoreError msg) →
                    r = Some (StoreError msg) ∧ S i = length evs)).
Proof.
  intros Hc. split; [by apply (Unlock_one_command d c s)|].
  intros l o Hp Hl. rewrite (Lock_unfold d l o s Hp Hl).
  destruct (lock_loop_faults d c l o Hp Hc (Z.to_nat (RetryCount o)) (RetryCount o) s)
    as (r & s' & evs & Hrun & Htr & Hn & Hflt); [done|lia|].
  exists r, s', evs. split; [done|]. split; [done|]. split; [done|].
  split; [done|]. split.
  - intros k f rest e msg Hfs Hf Hk Hst Ho.
    destruct (lock_loop_fault_at d c l o Hp Hc k (Z.to_nat (RetryCount o))
                (RetryCount o) s e f rest msg)
      as (s2 & Hrun2 & Htr2 & Hrest); [done|lia|done|done|done|done|done|].
    rewrite Hrun in Hrun2. injection Hrun2 as -> ->.
    rewrite Htr in Htr2. by apply app_inv_head in Htr2.
  - destruct (lock_loop_total d c l o Hp Hc (Z.to_nat (RetryCount o)) (RetryCount o) s)
      as (r3 & s3 & evs3 & Hrun3 & Htr3 & _ & Herr); [done|lia|].
    rewrite Hrun in Hrun3. injection Hrun3 as <- <-.
    rewrite Htr in Htr3. apply app_inv_head in Htr3. subst evs3.
    intros i ev msg. apply Herr.
Qed.

Lemma client_failure_returned_at_once_witness :
  let o := mkOptions 5000000000 3 100000000 in
  let held := ({[ "job-1" := mkEntry "req-A" 5000000000 ]} : gmap string Entry) in
  let a := Examples.mutex "job-1" "req-A" in
  let b := Examples.mutex "job-1" "req-B" in
  let s1 := mkState {[ 1%positive := o ]} held [ReplyLost "connection reset"] [] [] in
  let s2 := mkState {[ 1%positive := o ]} held [NoFault; SendFails "i/o timeout"] [] [] in
  (* release: the holder's command is executed, its reply is lost *)
  Unlock a s1
    = Ret (Some (StoreError "connection reset"),
           mkState {[ 1%positive := o ]} ∅ [] []
                   [EvEval "job-1" "req-A" I_nil (Some (StoreError "connection reset"))]) ∧
  (* acquire: the second attempt cannot be sent *)
  Lock b s2
    = Ret (Some (StoreError "i/o timeout"),
           mkState {[ 1%positive := o ]} held [] []
                   [EvSetNX "job-1" "req-B" 5000000000 false None;
                    EvSleep 100000000;
                    EvSetNX "job-1" "req-B" 5000000000 false
                            (Some (StoreError "i/o timeout"))]) ∧
  (∃ r s' res err, Unlock a s1 = Ret (r, s') ∧
     trace s' = trace s1 ++ [EvEval "job-1" "req-A" res err] ∧
     faults s' = tail (faults s1) ∧
     (∀ msg, upcoming_fault s1 = SendFails msg ∨ upcoming_fault s1 = ReplyLost msg →
             r = Some (StoreError msg) ∧ err = Some (StoreError msg)) ∧
     (∀ msg, err = Some (StoreError msg) → r = Some (StoreError msg))) ∧
  (∃ r s' evs, Lock b s2 = Ret (r, s') ∧
     trace s' = trace s2 ++ evs ∧
     (1 ≤ attempts evs)%nat ∧
     (∀ j msg, (j < attempts evs)%nat →
        faults s2 !! j = Some (SendFails msg) ∨ faults s2 !! j = Some (ReplyLost msg) →
        r = Some (StoreError msg) ∧ attempts evs = S j ∧
        ∃ pre, evs = pre ++ [EvSetNX "job-1" "req-B" 5000000000 false
                                     (Some (StoreError msg))]) ∧
     (∀ k f rest e msg,
        faults s2 = replicate k NoFault ++ f :: rest →
        f = SendFails msg ∨ f = ReplyLost msg →
        Z.of_nat k ≤ 3 →
        store s2 !! "job-1" = Some e → key_undisturbed "job-1" s2 = true →
        r = Some (StoreError msg) ∧
        evs = failed_rounds "job-1" "req-B" 5000000000 100000000 k
              ++ [EvSetNX "job-1" "req-B" 5000000000 false (Some (StoreError msg))] ∧
        faults s' = rest) ∧
     (∀ i ev msg, evs !! i = Some ev → client_error ev = Some (StoreError msg) →
                  r = Some (StoreError msg) ∧ S i = length evs)).
Proof.
  split; [reflexivity|]. split; [reflexivity|]. split.
  - refine (proj1 (client_failure_returned_at_once (Examples.mutex "job-1" "req-A")
                     (mkClient "127.0.0.1:6379")
                     (mkState {[ 1%positive := mkOptions 5000000000 3 100000000 ]}
                              {[ "job-1" := mkEntry "req-A" 5000000000 ]}
                              [ReplyLost "connection reset"] [] []) _)).
    reflexivity.
  - refine (proj2 (client_failure_returned_at_once (Examples.mutex "job-1" "req-B")
                     (mkClient "127.0.0.1:6379")
                     (mkState {[ 1%positive := mkOptions 5000000000 3 100000000 ]}
                              {[ "job-1" := mkEntry "req-A" 5000000000 ]}
                              [NoFault; SendFails "i/o timeout"] [] []) _)
                  1%positive (mkOptions 5000000000 3 100000000) _ _);
      reflexivity.
Defined.


